(** * monitor_fs: the inotify read / segment / dump loop of DirectoryWatcher

    A shallow embedding of [src/monitor_fs.cpp].  The read buffer is a list
    of bytes, pointers into it are byte offsets from its start, and every
    function that prints or touches memory returns the events it produced
    together with its result.  A load outside the allocated buffer is
    undefined behaviour in the source; here it stops the run with [Fault]. *)

From Stdlib Require Import ZArith Bool String List Lia.
From Stdlib Require Import Sorting.Sorted Sorting.Permutation.
From coqutil Require Import Byte Word.LittleEndianList.
Import ListNotations.
Local Open Scope Z_scope.

(** ** Constants of the system headers *)

(** The flag bits of <sys/inotify.h> (Linux UAPI values). *)
Module Inotify.
Definition IN_ACCESS        : Z := 0x00000001.
Definition IN_MODIFY        : Z := 0x00000002.
Definition IN_ATTRIB        : Z := 0x00000004.
Definition IN_CLOSE_WRITE   : Z := 0x00000008.
Definition IN_CLOSE_NOWRITE : Z := 0x00000010.
Definition IN_OPEN          : Z := 0x00000020.
Definition IN_MOVED_FROM    : Z := 0x00000040.
Definition IN_MOVED_TO      : Z := 0x00000080.
Definition IN_CREATE        : Z := 0x00000100.
Definition IN_DELETE        : Z := 0x00000200.
Definition IN_DELETE_SELF   : Z := 0x00000400.
Definition IN_MOVE_SELF     : Z := 0x00000800.
Definition IN_UNMOUNT       : Z := 0x00002000.
Definition IN_Q_OVERFLOW    : Z := 0x00004000.
Definition IN_IGNORED       : Z := 0x00008000.
Definition IN_ISDIR         : Z := 0x40000000.
End Inotify.
Import Inotify.

(** <errno.h> *)
Definition EINTR : Z := 4.

(** <linux/limits.h> *)
Definition NAME_MAX : Z := 255.

(** [sizeof(struct inotify_event)]: int wd; uint32_t mask, cookie, len;
    followed by the flexible array [char name[]]. *)
Definition sizeof_inotify_event : Z := 16.

(** [#define IN_ALL]: OR of all inotify flag bits. *)
Definition IN_ALL : Z :=
  fold_right Z.lor 0
    [IN_ACCESS; IN_ATTRIB; IN_CLOSE_WRITE; IN_CLOSE_NOWRITE;
     IN_CREATE; IN_DELETE; IN_DELETE_SELF; IN_MODIFY; IN_MOVE_SELF;
     IN_MOVED_FROM; IN_MOVED_TO; IN_OPEN; IN_IGNORED; IN_ISDIR;
     IN_Q_OVERFLOW; IN_UNMOUNT].

(** [const size_t minBufferSize = sizeof(struct inotify_event) + NAME_MAX + 1] *)
Definition minBufferSize : Z := sizeof_inotify_event + NAME_MAX + 1.

(** Unsigned 64-bit arithmetic of [size_t] (an LP64 target), signed
    reading of a 32-bit [int]. *)
Definition size_t (z : Z) : Z := z mod 2 ^ 64.
Definition int32 (u : Z) : Z := if u <? 2 ^ 31 then u else u - 2 ^ 32.

(** ** [std::map<uint32_t, std::string>]

    An ordered map: insertion keeps the keys strictly ascending and leaves
    an existing key alone; iteration from [begin()] to [end()] walks the
    keys in ascending order. *)
Module StdMap.
Definition t : Type := list (Z * string).

Fixpoint insert (k : Z) (v : string) (m : t) : t :=
  match m with
  | [] => [(k, v)]
  | (k', v') :: m' =>
      if k <? k' then (k, v) :: m
      else if k =? k' then m
      else (k', v') :: insert k v m'
  end.

(** Construction from an initializer list: the pairs are inserted in
    the order they are written. *)
Definition of_list (l : list (Z * string)) : t :=
  fold_left (fun m p => insert (fst p) (snd p) m) l [].

Definition keys (m : t) : list Z := map fst m.
End StdMap.

(** The initializer list of [codes], in the order of the [MAP_PAIR] lines. *)
Definition codes_init : list (Z * string) :=
  [ (IN_ACCESS,        "IN_ACCESS"%string);
    (IN_ATTRIB,        "IN_ATTRIB"%string);
    (IN_CLOSE_WRITE,   "IN_CLOSE_WRITE"%string);
    (IN_CLOSE_NOWRITE, "IN_CLOSE_NOWRITE"%string);
    (IN_CREATE,        "IN_CREATE"%string);
    (IN_DELETE,        "IN_DELETE"%string);
    (IN_DELETE_SELF,   "IN_DELETE_SELF"%string);
    (IN_MODIFY,        "IN_MODIFY"%string);
    (IN_MOVE_SELF,     "IN_MOVE_SELF"%string);
    (IN_MOVED_FROM,    "IN_MOVED_FROM"%string);
    (IN_MOVED_TO,      "IN_MOVED_TO"%string);
    (IN_OPEN,          "IN_OPEN"%string);
    (IN_IGNORED,       "IN_IGNORED"%string);
    (IN_ISDIR,         "IN_ISDIR"%string);
    (IN_Q_OVERFLOW,    "IN_Q_OVERFLOW"%string);
    (IN_UNMOUNT,       "IN_UNMOUNT"%string) ].

(** [static std::map<uint32_t, std::string> codes = { ... }] *)
Definition codes : StdMap.t := StdMap.of_list codes_init.

(** The test of line 63, [iNotifyEvent->mask & it->first]. *)
Definition mask_has (mask : Z) (p : Z * string) : bool :=
  negb (Z.land mask (fst p) =? 0).

(** Lines 61-67: the names printed under "Event mask includes:", walking
    the table [m] from its first to its last entry. *)
Definition mask_names (m : list (Z * string)) (mask : Z) : list string :=
  map snd (filter (mask_has mask) m).

(** ** Events, results and the output monad *)

(** The header fields that one call of [dump_inotify_event] prints
    (lines 53-57). *)
Record report : Type := mkReport {
  r_wd : Z;
  r_mask : Z;
  r_cookie : Z;
  r_len : Z
}.

Inductive syscall : Type :=
| SYS_inotify_init
| SYS_inotify_add_watch (mask : Z)
| SYS_read
| SYS_inotify_rm_watch
| SYS_close.

Inductive event : Type :=
| MemRead (addr : Z) (n : nat)       (* n bytes of the buffer read at offset addr *)
| Dispatch (p : Z) (r : report)      (* dump_inotify_event(buffer + p): lines 53-57 *)
| CoutName (s : list byte)           (* line 58 *)
| CoutIncludes (names : list string) (* lines 60-69 *)
| Cout (s : string)
| Cerr (s : string)
| CerrErrno (e : Z)              (* the "Errno is ..." line *)
| Sys (c : syscall).

Inductive stop : Type :=
| Fault       (* a load outside the allocation *)
| Blocked     (* read(2) never returns: no further input *)
| OutOfFuel.

Inductive res (A : Type) : Type :=
| Ret (a : A)
| Stop (why : stop).
Arguments Ret {A} a.
Arguments Stop {A} why.

Definition M (A : Type) : Type := (list event * res A)%type.

Definition ret {A : Type} (a : A) : M A := ([], Ret a).

Definition bind {A B : Type} (m : M A) (f : A -> M B) : M B :=
  match m with
  | (t, Ret a) => let (t', r) := f a in (t ++ t', r)
  | (t, Stop w) => (t, Stop w)
  end.

Definition emit (e : event) : M unit := ([e], Ret tt).
Definition halt {A : Type} (w : stop) : M A := ([], Stop w).

Notation "x <- m ;; k" := (bind m (fun x => k))
  (at level 61, m at next level, right associativity).
Notation "m ;; k" := (bind m (fun _ => k))
  (at level 61, right associativity).

(** ** Memory reads *)

(** A 32-bit field at offset [a], little-endian as on the usual Linux
    targets. *)
Definition load32 (mem : list byte) (a : Z) : M Z :=
  emit (MemRead a 4) ;;
  if a <? 0 then halt Fault
  else
    let bs := firstn 4 (skipn (Z.to_nat a) mem) in
    if (List.length bs =? 4)%nat then ret (le_combine bs) else halt Fault.

(** [operator<<(const char* )]: the bytes from [a] up to the first NUL. *)
Fixpoint c_str_from (l : list byte) (a : Z) : M (list byte) :=
  emit (MemRead a 1) ;;
  match l with
  | [] => halt Fault
  | b :: l' =>
      if Byte.eqb b Byte.x00 then ret []
      else s <- c_str_from l' (a + 1) ;; ret (b :: s)
  end.

Definition c_str (mem : list byte) (a : Z) : M (list byte) :=
  if a <? 0 then emit (MemRead a 1) ;; halt Fault
  else c_str_from (skipn (Z.to_nat a) mem) a.

(** ** [dump_inotify_event] (lines 29-70)

    The header fields are read at their offsets in the struct and
    printed; then the name is streamed as a C string from [name]; then
    the table [codes] is walked with the mask.  The memory is not written
    in between, so each field is loaded once.  The four header lines are
    one event, recorded when the four fields have been read; the source
    prints each field as it reads it, which differs only when one of
    these reads leaves the allocation. *)
Definition dump_inotify_event (mem : list byte) (iNotifyEvent : Z) : M unit :=
  wd     <- load32 mem iNotifyEvent ;;
  mask   <- load32 mem (iNotifyEvent + 4) ;;
  cookie <- load32 mem (iNotifyEvent + 8) ;;
  len    <- load32 mem (iNotifyEvent + 12) ;;
  emit (Dispatch iNotifyEvent (mkReport (int32 wd) mask cookie len)) ;;
  name   <- c_str mem (iNotifyEvent + sizeof_inotify_event) ;;
  emit (CoutName name) ;;
  emit (CoutIncludes (mask_names codes mask)).

(** ** The record loop of [main] (lines 134-140)

    [buffer] and [bufferEnd] are offsets from the start of the allocation;
    the result is the value of [buffer] when the loop is left. *)
Fixpoint segment_loop (fuel : nat) (mem : list byte) (bufferEnd buffer : Z) : M Z :=
  match fuel with
  | O => halt OutOfFuel
  | S fuel' =>
      if buffer <? bufferEnd then
        dump_inotify_event mem buffer ;;
        len <- load32 mem (buffer + 12) ;;
        segment_loop fuel' mem bufferEnd
          (buffer + size_t (sizeof_inotify_event + len))
      else ret buffer
  end.

(** Every iteration moves [buffer] forward by at least one header, so one
    more iteration than bytes read is always enough. *)
Definition segment_fuel (bytesRead : Z) : nat := S (Z.to_nat bytesRead).

(** ** The run loop of [main] (lines 115-141) *)

(** The variables of [main] that the loop reads and writes, the contents
    of the allocation behind [uptrBuffer], [errno], and the flag the
    signal handler sets. *)
Record state : Type := mkState {
  mem : list byte;
  bytesRead : Z;
  errno : Z;
  gblExitRequested : bool
}.

(** [handle_signals]: the SIGINT handler. *)
Definition handle_signals (s : state) : state :=
  mkState (mem s) (bytesRead s) (errno s) true.

(** What one call of [read(inotifyFd, buffer, minBufferSize)] does: it
    copies [data] (at most [minBufferSize] bytes) to the start of the
    buffer and returns its length, or it returns -1 and sets [errno].
    A read that succeeds leaves [errno] as it was. *)
Inductive read_outcome : Type :=
| ReadOk (data : list byte)
| ReadErr (e : Z).

(** One loop iteration as the environment drives it: the outcome of the
    read, and whether SIGINT is delivered between this test of the loop
    condition and the next one. *)
Record env_step : Type := mkStep {
  outcome : read_outcome;
  sigint : bool
}.

Definition deliver (e : env_step) (s : state) : state :=
  if sigint e then handle_signals s else s.

Definition sys_read (r : read_outcome) (s : state) : state :=
  match r with
  | ReadOk data =>
      mkState (data ++ skipn (List.length data) (mem s))
              (Z.of_nat (List.length data)) (errno s) (gblExitRequested s)
  | ReadErr e => mkState (mem s) (-1) e (gblExitRequested s)
  end.

(** How the body of the [while] is left. *)
Inductive control : Type :=
| Continue (s : state)   (* back to the loop condition *)
| Break (s : state).     (* [break] *)

(** Lines 120-140. *)
Definition loop_body (s : state) (e : env_step) : M control :=
  emit (Sys SYS_read) ;;
  let s := deliver e (sys_read (outcome e) s) in
  if bytesRead s <? 0 then
    if errno s =? EINTR then ret (Continue s) else ret (Break s)
  else if size_t (bytesRead s) <? sizeof_inotify_event then
    ret (Break s)
  else
    emit (Cout "Completed one read..."%string) ;;
    segment_loop (segment_fuel (bytesRead s)) (mem s) (bytesRead s) 0 ;;
    ret (Continue s).

(** Lines 115-141: [while(!gblExitRequested) { ... }].  With no step left
    the read blocks for ever. *)
Fixpoint run_loop (env : list env_step) (s : state) : M state :=
  if gblExitRequested s then ret s
  else
    match env with
    | [] => halt Blocked
    | e :: env' =>
        c <- loop_body s e ;;
        match c with
        | Continue s' => run_loop env' s'
        | Break s' => ret s'
        end
    end.

(** Lines 143-162: the diagnostics, the cleanup and the exit code. *)
Definition epilogue (s : state) : M Z :=
  failure <-
    (if negb (errno s =? EINTR) then
       if bytesRead s <? 0 then
         emit (Cerr "Error reading inotify file id"%string) ;;
         emit (CerrErrno (errno s)) ;;
         ret 1
       else if negb (size_t (bytesRead s) =? sizeof_inotify_event) then
         emit (Cerr "Error reading inotify file id. Unexpected number of bytes"%string) ;;
         ret 1
       else ret 0
     else ret 0) ;;
  emit (Cout "Ending program..."%string) ;;
  emit (Sys SYS_inotify_rm_watch) ;;
  emit (Sys SYS_close) ;;
  ret failure.

(** What the process meets: its argument count and [argv[1]], the
    results of [inotify_init] and [inotify_add_watch], the values the
    uninitialised [bytesRead] and buffer happen to hold, [errno] when the
    loop is entered, whether SIGINT arrives before the first test of the
    loop condition, and the reads. *)
Record world : Type := mkWorld {
  argc : Z;
  argv1 : string;
  inotifyFd : Z;
  watchDescriptor : Z;
  bytesRead_uninit : Z;
  buffer_uninit : list byte;
  errno_init : Z;
  sigint_early : bool;
  reads : list env_step
}.

Definition enter (w : world) : state :=
  let s := mkState (buffer_uninit w) (bytesRead_uninit w) (errno_init w) false in
  if sigint_early w then handle_signals s else s.

(** [main] (lines 72-163); the result is the exit code. *)
Definition main (w : world) : M Z :=
  if negb (argc w =? 2) then
    emit (Cerr "Only one argument required: Directory or file!"%string) ;; ret 1
  else
    emit (Sys SYS_inotify_init) ;;
    if inotifyFd w <? 0 then
      emit (Cerr "Failed to create inotify file descriptor"%string) ;; ret 1
    else
      emit (Sys (SYS_inotify_add_watch IN_ALL)) ;;
      if watchDescriptor w <? 0 then
        emit (Cerr ("Failed to add the directory '" ++ argv1 w ++
                    "' to the watch list")%string) ;;
        emit (Sys SYS_close) ;;
        ret 1
      else
        s <- run_loop (reads w) (enter w) ;;
        epilogue s.

(** ** The wire layout, for stating what the loop is fed *)

(** One record as the kernel writes it: the header fields and the [len]
    bytes of the name field. *)
Record raw_event : Type := mkRaw {
  wd : Z;
  mask : Z;
  cookie : Z;
  name : list byte
}.

Definition len (e : raw_event) : Z := Z.of_nat (List.length (name e)).

Definition valid_event (e : raw_event) : bool :=
  (- 2 ^ 31 <=? wd e) && (wd e <? 2 ^ 31) &&
  (0 <=? mask e) && (mask e <? 2 ^ 32) &&
  (0 <=? cookie e) && (cookie e <? 2 ^ 32) &&
  (len e <? 2 ^ 32).

Definition encode (e : raw_event) : list byte :=
  le_split 4 (wd e) ++ le_split 4 (mask e) ++ le_split 4 (cookie e) ++
  le_split 4 (len e) ++ name e.

Definition encode_all (es : list raw_event) : list byte :=
  concat (map encode es).

(** ** Reading a trace *)

Definition dispatches (t : list event) : list (Z * report) :=
  flat_map (fun e => match e with Dispatch p r => [(p, r)] | _ => [] end) t.

Definition mem_reads (t : list event) : list (Z * nat) :=
  flat_map (fun e => match e with MemRead a n => [(a, n)] | _ => [] end) t.

Definition is_mem_read (e : event) : bool :=
  match e with MemRead _ _ => true | _ => false end.

(** The trace without the memory reads: system calls and output. *)
Definition observable (t : list event) : list event :=
  filter (fun e => negb (is_mem_read e)) t.

Definition is_sys (c : syscall) (e : event) : bool :=
  match e, c with
  | Sys SYS_inotify_init, SYS_inotify_init => true
  | Sys (SYS_inotify_add_watch _), SYS_inotify_add_watch _ => true
  | Sys SYS_read, SYS_read => true
  | Sys SYS_inotify_rm_watch, SYS_inotify_rm_watch => true
  | Sys SYS_close, SYS_close => true
  | _, _ => false
  end.

(** How often the system call [c] was made. *)
Definition calls (c : syscall) (t : list event) : nat :=
  List.length (filter (is_sys c) t).

Definition is_cerr (e : event) : bool :=
  match e with Cerr _ | CerrErrno _ => true | _ => false end.

(** The record slice a dispatch stands for: where it starts and how far
    the loop moves on after it. *)
Definition slice_of (d : Z * report) : Z * Z :=
  (fst d, sizeof_inotify_event + r_len (snd d)).

Definition header_of (d : Z * report) : Z * Z * Z * Z :=
  (r_wd (snd d), r_mask (snd d), r_cookie (snd d), r_len (snd d)).

(** The boundaries of the records of [es] laid out from offset [p]. *)
Fixpoint boundaries (p : Z) (es : list raw_event) : list (Z * Z) :=
  match es with
  | [] => []
  | e :: es' =>
      let n := Z.of_nat (List.length (encode e)) in
      (p, n) :: boundaries (p + n) es'
  end.

Definition has_nul (l : list byte) : bool :=
  existsb (fun b => Byte.eqb b Byte.x00) l.

(** The records [es] are followed in the allocation by [post]: the C-string
    scan that starts at each record's name field meets a NUL before the
    end of the allocation. *)
Fixpoint scans_end (es : list raw_event) (post : list byte) : bool :=
  match es with
  | [] => true
  | e :: es' =>
      has_nul (name e ++ encode_all es' ++ post) && scans_end es' post
  end.

Definition header (e : raw_event) : Z * Z * Z * Z :=
  (wd e, mask e, cookie e, len e).

Definition report_of (e : raw_event) : report :=
  mkReport (wd e) (mask e) (cookie e) (len e).

(** What the record loop prints for the records [es] that lie from offset
    [p] on, when the names come out as [names]. *)
Fixpoint printed (p : Z) (es : list raw_event) (names : list (list byte))
  : list event :=
  match es, names with
  | e :: es', nm :: names' =>
      Dispatch p (report_of e) :: CoutName nm ::
      CoutIncludes (mask_names codes (mask e)) ::
      printed (p + Z.of_nat (List.length (encode e))) es' names'
  | _, _ => []
  end.

(** The bytes of the buffer [m] that a slice covers. *)
Definition slice_bytes (m : list byte) (sl : Z * Z) : list byte :=
  firstn (Z.to_nat (snd sl)) (skipn (Z.to_nat (fst sl)) m).

(** The loop runs through the steps [pre] when it is entered in [s]: no
    step of [pre] finds the flag set, breaks or faults.  The result is
    the trace of these iterations and the state before the next test of
    the loop condition. *)
Fixpoint run_prefix (pre : list env_step) (s : state) : option (list event * state) :=
  match pre with
  | [] => Some ([], s)
  | e :: pre' =>
      if gblExitRequested s then None
      else
        match loop_body s e with
        | (t, Ret (Continue s')) =>
            match run_prefix pre' s' with
            | Some (t', s'') => Some (t ++ t', s'')
            | None => None
            end
        | _ => None
        end
  end.


(** The memory read [rd] (address, size) is not inside the allocation
    [m]. *)
Definition outside (m : list byte) (rd : Z * nat) : bool :=
  (fst rd <? 0) || (Z.of_nat (List.length m) <? fst rd + Z.of_nat (snd rd)).

(** The ranges of the fields of [struct inotify_event]: a signed 32-bit
    [wd], unsigned 32-bit [mask], [cookie] and [len]. *)
Definition report_in_range (r : report) : Prop :=
  - 2 ^ 31 <= r_wd r < 2 ^ 31 /\ 0 <= r_mask r < 2 ^ 32 /\
  0 <= r_cookie r < 2 ^ 32 /\ 0 <= r_len r < 2 ^ 32.

(** ** Sample inputs *)

Module Sample.
(** Events on a watched file carry no name. *)
Definition ev_open : raw_event := mkRaw 1 IN_OPEN 0 [].
Definition ev_close : raw_event := mkRaw 1 IN_CLOSE_NOWRITE 0 [].
Definition ev_attrib_modify : raw_event := mkRaw 1 (Z.lor IN_ATTRIB IN_MODIFY) 0 [].

(** "sub" created in a watched directory; the kernel pads the name with
    NULs to 16 bytes. *)
Definition ev_create : raw_event :=
  mkRaw 1 (Z.lor IN_CREATE IN_ISDIR) 0
    ([Byte.x73; Byte.x75; Byte.x62] ++ repeat Byte.x00 13).



(** A buffer that happens to hold zeros when it is allocated. *)
Definition zeros : list byte := repeat Byte.x00 (Z.to_nat minBufferSize).

(** One argument, both set-up calls succeed, [errno] is 0, no early
    SIGINT. *)
Definition path : string := "watched"%string.

Definition world_of (reads : list env_step) : world :=
  mkWorld 2 path 3 1 0 zeros 0 false reads.

Definition EIO : Z := 5.

(** The buffer after a first read that delivered [data]. *)
Definition after_read (data : list byte) : list byte :=
  mem (sys_read (ReadOk data) (enter (world_of []))).
End Sample.

(** * Proofs *)

(** ** The output monad *)

Lemma bind_Ret {A B : Type} (t : list event) (a : A) (f : A -> M B) :
  bind (t, Ret a) f = (t ++ fst (f a), snd (f a)).
Proof. unfold bind. destruct (f a); reflexivity. Qed.

Lemma bind_Stop {A B : Type} (t : list event) (w : stop) (f : A -> M B) :
  bind (t, Stop w) f = (t, Stop w).
Proof. reflexivity. Qed.

Lemma observable_app (t u : list event) :
  observable (t ++ u) = observable t ++ observable u.
Proof. unfold observable. apply filter_app. Qed.

Lemma dispatches_app (t u : list event) :
  dispatches (t ++ u) = dispatches t ++ dispatches u.
Proof. unfold dispatches. apply flat_map_app. Qed.

Lemma dispatches_observable (t : list event) :
  dispatches (observable t) = dispatches t.
Proof.
  induction t as [|e t IH]; [reflexivity|].
  destruct e; simpl; rewrite ?IH; reflexivity.
Qed.

Lemma mem_reads_app (t u : list event) :
  mem_reads (t ++ u) = mem_reads t ++ mem_reads u.
Proof. unfold mem_reads. apply flat_map_app. Qed.

Lemma calls_app (c : syscall) (t u : list event) :
  calls c (t ++ u) = (calls c t + calls c u)%nat.
Proof. unfold calls. rewrite filter_app, length_app. reflexivity. Qed.

Lemma calls_observable (c : syscall) (t : list event) :
  calls c (observable t) = calls c t.
Proof.
  unfold calls, observable in *. induction t as [|e t IH]; [reflexivity|].
  simpl. destruct (is_mem_read e) eqn:E; simpl.
  - destruct e; try discriminate. exact IH.
  - destruct (is_sys c e); simpl; rewrite IH; reflexivity.
Qed.

(** ** Memory reads *)

Lemma size_t_advance (v : Z) :
  0 <= v < 2 ^ 32 -> size_t (sizeof_inotify_event + v) = sizeof_inotify_event + v.
Proof.
  intros H. unfold size_t, sizeof_inotify_event.
  apply Z.mod_small. change (2 ^ 32) with 4294967296 in H.
  change (2 ^ 64) with 18446744073709551616. lia.
Qed.

Lemma int32_wrap (z : Z) :
  - 2 ^ 31 <= z < 2 ^ 31 -> int32 (z mod 2 ^ 32) = z.
Proof.
  intros H. unfold int32.
  change (2 ^ 31) with 2147483648 in *. change (2 ^ 32) with 4294967296.
  destruct (Z.ltb_spec z 0) as [Hn|Hp].
  - replace (z mod 4294967296) with (z + 4294967296).
    + destruct (Z.ltb_spec (z + 4294967296) 2147483648); lia.
    + apply Z.mod_unique with (q := -1); lia.
  - rewrite Z.mod_small by lia.
    destruct (Z.ltb_spec z 2147483648); lia.
Qed.

(** A load either faults or yields an unsigned 32-bit value; either way
    it touches the four bytes at [a] and nothing else. *)
Lemma load32_cases (m : list byte) (a : Z) :
  load32 m a = ([MemRead a 4], Stop Fault) \/
  exists v, load32 m a = ([MemRead a 4], Ret v) /\ 0 <= v < 2 ^ 32.
Proof.
  unfold load32, emit, halt, ret, bind.
  destruct (a <? 0); [left; reflexivity|].
  destruct (Nat.eqb_spec (length (firstn 4 (skipn (Z.to_nat a) m))) 4) as [E|E].
  - right. eexists. split; [reflexivity|].
    pose proof (le_combine_bound (firstn 4 (skipn (Z.to_nat a) m))) as B.
    rewrite E in B. exact B.
  - left; reflexivity.
Qed.

Lemma firstn_length_app {A : Type} (l r : list A) :
  firstn (length l) (l ++ r) = l.
Proof. induction l as [|x l IH]; simpl; [destruct r|rewrite IH]; reflexivity. Qed.

Lemma skipn_length_app {A : Type} (l r : list A) :
  skipn (length l) (l ++ r) = r.
Proof. induction l as [|x l IH]; simpl; [reflexivity|exact IH]. Qed.

(** The four bytes written for [v] at the end of [pre] read back as [v]. *)
Lemma load32_at (pre post : list byte) (v : Z) :
  load32 (pre ++ le_split 4 v ++ post) (Z.of_nat (length pre)) =
  ([MemRead (Z.of_nat (length pre)) 4], Ret (v mod 2 ^ 32)).
Proof.
  unfold load32, emit, halt, ret, bind.
  destruct (Z.ltb_spec (Z.of_nat (length pre)) 0) as [H|_]; [lia|].
  rewrite Nat2Z.id, skipn_length_app.
  pose proof (firstn_length_app (le_split 4 v) post) as F.
  rewrite length_le_split in F. rewrite F.
  rewrite length_le_split. simpl Nat.eqb. cbv iota.
  rewrite le_combine_split. reflexivity.
Qed.

(** The C-string scan emits memory reads only. *)
Lemma c_str_from_cases (l : list byte) :
  forall a, exists t, observable t = [] /\
    (c_str_from l a = (t, Stop Fault) \/ exists s, c_str_from l a = (t, Ret s)).
Proof.
  induction l as [|b l IH]; intros a; cbn [c_str_from]; unfold emit; rewrite bind_Ret.
  - eexists; split; [|left; reflexivity]. reflexivity.
  - destruct (Byte.eqb b Byte.x00).
    + eexists; split; [|right; eexists; reflexivity]. reflexivity.
    + destruct (IH (a + 1)) as (t & Ht & [E | [s E]]); rewrite E.
      * rewrite bind_Stop. simpl. eexists; split; [|left; reflexivity].
        simpl. exact Ht.
      * rewrite bind_Ret. simpl. rewrite app_nil_r.
        eexists; split; [|right; eexists; reflexivity]. simpl. exact Ht.
Qed.

(** With a NUL ahead the scan ends inside the buffer. *)
Lemma c_str_from_ok (l : list byte) :
  has_nul l = true ->
  forall a, exists t s, observable t = [] /\ c_str_from l a = (t, Ret s).
Proof.
  induction l as [|b l IH]; intros H a; cbn [has_nul existsb] in H; [discriminate|].
  cbn [c_str_from]. unfold emit. rewrite bind_Ret.
  destruct (Byte.eqb b Byte.x00).
  - do 2 eexists; split; [|reflexivity]. reflexivity.
  - destruct (IH H (a + 1)) as (t & s & Ht & E). rewrite E, bind_Ret.
    simpl. rewrite app_nil_r. do 2 eexists; split; [|reflexivity]. simpl. exact Ht.
Qed.

Lemma c_str_cases (m : list byte) (a : Z) :
  exists t, observable t = [] /\
    (c_str m a = (t, Stop Fault) \/ exists s, c_str m a = (t, Ret s)).
Proof.
  unfold c_str. destruct (a <? 0).
  - eexists; split; [|left; reflexivity]. reflexivity.
  - apply c_str_from_cases.
Qed.

Lemma c_str_ok (m : list byte) (a : Z) :
  0 <= a -> has_nul (skipn (Z.to_nat a) m) = true ->
  exists t s, observable t = [] /\ c_str m a = (t, Ret s).
Proof.
  intros Ha H. unfold c_str.
  destruct (Z.ltb_spec a 0); [lia|]. apply c_str_from_ok; exact H.
Qed.

(** ** [dump_inotify_event] *)

(** One header field of the struct at a goal that starts with its load:
    either the load faults, and the call has printed nothing, or it
    yields a value and the call goes on. *)
Ltac header_field m a :=
  let E := fresh "E" in
  let v := fresh "v" in
  destruct (load32_cases m a) as [E | (v & E & _)]; rewrite E;
  [eexists; left; split; reflexivity | rewrite bind_Ret].

(** The three ways a call can go: a header field lies outside the
    allocation; the header is printed and the name scan runs off the
    allocation; or the call prints header, name and flag names. *)
Lemma dump_cases (m : list byte) (p : Z) :
  exists t,
    (dump_inotify_event m p = (t, Stop Fault) /\ observable t = []) \/
    (exists r,
       dump_inotify_event m p = (t, Stop Fault) /\
       observable t = [Dispatch p r] /\
       load32 m (p + 12) = ([MemRead (p + 12) 4], Ret (r_len r))) \/
    (exists r nm,
       dump_inotify_event m p = (t, Ret tt) /\
       observable t = [Dispatch p r; CoutName nm;
                       CoutIncludes (mask_names codes (r_mask r))] /\
       load32 m (p + 12) = ([MemRead (p + 12) 4], Ret (r_len r)) /\
       snd (c_str m (p + sizeof_inotify_event)) = Ret nm).
Proof.
  unfold dump_inotify_event.
  header_field m p. header_field m (p + 4).
  header_field m (p + 8). header_field m (p + 12).
  unfold emit. rewrite bind_Ret.
  destruct (c_str_cases m (p + sizeof_inotify_event)) as (ts & Hts & [E5 | [s E5]]);
    rewrite E5.
  - rewrite bind_Stop. cbn [fst snd]. eexists. right. left.
    eexists (mkReport _ _ _ _).
    split; [reflexivity|].
    split; [rewrite !observable_app, Hts; reflexivity | reflexivity].
  - rewrite !bind_Ret. cbn [fst snd]. eexists. right. right.
    eexists (mkReport _ _ _ _), s.
    split; [reflexivity|].
    split; [rewrite !observable_app, Hts; reflexivity|].
    split; reflexivity.
Qed.

Lemma dump_calls (c : syscall) (m : list byte) (p : Z) :
  calls c (fst (dump_inotify_event m p)) = 0%nat.
Proof.
  rewrite <- calls_observable.
  destruct (dump_cases m p)
    as (t & [(E & Ho) | [(r & E & Ho & _) | (r & nm & E & Ho & _)]]);
    rewrite E; cbn [fst]; rewrite Ho; reflexivity.
Qed.

Lemma length_encode (e : raw_event) :
  Z.of_nat (length (encode e)) = sizeof_inotify_event + len e.
Proof.
  unfold encode, len, sizeof_inotify_event.
  rewrite !length_app, !length_le_split. lia.
Qed.

Lemma valid_event_spec (e : raw_event) :
  valid_event e = true ->
  - 2 ^ 31 <= wd e < 2 ^ 31 /\ 0 <= mask e < 2 ^ 32 /\
  0 <= cookie e < 2 ^ 32 /\ 0 <= len e < 2 ^ 32.
Proof.
  unfold valid_event. rewrite !andb_true_iff.
  rewrite !Z.leb_le, !Z.ltb_lt. unfold len. lia.
Qed.

(** The header of a record that lies at [p] reads back field by field. *)
Lemma header_at (pre post : list byte) (e : raw_event) (p : Z) :
  p = Z.of_nat (length pre) ->
  let m := pre ++ encode e ++ post in
  load32 m p = ([MemRead p 4], Ret (wd e mod 2 ^ 32)) /\
  load32 m (p + 4) = ([MemRead (p + 4) 4], Ret (mask e mod 2 ^ 32)) /\
  load32 m (p + 8) = ([MemRead (p + 8) 4], Ret (cookie e mod 2 ^ 32)) /\
  load32 m (p + 12) = ([MemRead (p + 12) 4], Ret (len e mod 2 ^ 32)) /\
  skipn (Z.to_nat (p + sizeof_inotify_event)) m = name e ++ post.
Proof.
  intros -> m. subst m. unfold encode. rewrite <- !app_assoc.
  set (A := le_split 4 (wd e)). set (B := le_split 4 (mask e)).
  set (C := le_split 4 (cookie e)). set (D := le_split 4 (len e)).
  assert (LA : length A = 4%nat) by apply length_le_split.
  assert (LB : length B = 4%nat) by apply length_le_split.
  assert (LC : length C = 4%nat) by apply length_le_split.
  assert (LD : length D = 4%nat) by apply length_le_split.
  repeat split.
  - apply load32_at.
  - replace (Z.of_nat (length pre) + 4) with (Z.of_nat (length (pre ++ A)))
      by (rewrite length_app; lia).
    rewrite (app_assoc pre A). apply load32_at.
  - replace (Z.of_nat (length pre) + 8) with (Z.of_nat (length (pre ++ A ++ B)))
      by (rewrite !length_app; lia).
    rewrite (app_assoc A B), (app_assoc pre (A ++ B)). apply load32_at.
  - replace (Z.of_nat (length pre) + 12)
      with (Z.of_nat (length (pre ++ A ++ B ++ C)))
      by (rewrite !length_app; lia).
    rewrite (app_assoc B C), (app_assoc A (B ++ C)),
      (app_assoc pre (A ++ B ++ C)). apply load32_at.
  - replace (Z.to_nat (Z.of_nat (length pre) + sizeof_inotify_event))
      with (length (pre ++ A ++ B ++ C ++ D))
      by (rewrite !length_app; unfold sizeof_inotify_event; lia).
    rewrite (app_assoc C D), (app_assoc B (C ++ D)), (app_assoc A (B ++ C ++ D)),
      (app_assoc pre (A ++ B ++ C ++ D)).
    apply skipn_length_app.
Qed.

(** On a valid record the call prints the record's own header fields,
    whatever becomes of the name scan; the scan ends inside the
    allocation when a NUL follows. *)
Lemma dump_at (pre post : list byte) (e : raw_event) (p : Z) :
  p = Z.of_nat (length pre) ->
  valid_event e = true ->
  exists t r,
    dump_inotify_event (pre ++ encode e ++ post) p = (t, r) /\
    ((r = Stop Fault /\ observable t = [Dispatch p (report_of e)]) \/
     (r = Ret tt /\ exists nm,
        observable t = [Dispatch p (report_of e); CoutName nm;
                        CoutIncludes (mask_names codes (mask e))])) /\
    (has_nul (name e ++ post) = true -> r = Ret tt).
Proof.
  intros Hp Hv.
  destruct (valid_event_spec e Hv) as (Hwd & Hmask & Hcookie & Hlen).
  destruct (header_at pre post e p Hp) as (E1 & E2 & E3 & E4 & E5).
  unfold dump_inotify_event.
  rewrite E1, bind_Ret, E2, bind_Ret, E3, bind_Ret, E4, bind_Ret.
  rewrite int32_wrap by exact Hwd.
  rewrite !Z.mod_small by assumption. fold (report_of e).
  unfold emit. rewrite bind_Ret.
  destruct (c_str_cases (pre ++ encode e ++ post) (p + sizeof_inotify_event))
    as (ts & Hts & [E6 | [s E6]]); rewrite E6.
  - rewrite bind_Stop. cbn [fst snd]. do 2 eexists. split; [reflexivity|].
    split.
    + left. split; [reflexivity|]. rewrite !observable_app, Hts. reflexivity.
    + intros Hn. exfalso.
      destruct (c_str_ok (pre ++ encode e ++ post) (p + sizeof_inotify_event))
        as (t' & s' & _ & E7);
        [unfold sizeof_inotify_event; lia | rewrite E5; exact Hn | congruence].
  - rewrite !bind_Ret. cbn [fst snd]. do 2 eexists. split; [reflexivity|].
    split; [|reflexivity].
    right. split; [reflexivity|]. exists s.
    rewrite !observable_app, Hts. reflexivity.
Qed.

(** ** The record loop *)

Lemma encode_all_cons (e : raw_event) (es : list raw_event) :
  encode_all (e :: es) = encode e ++ encode_all es.
Proof. reflexivity. Qed.

Lemma encode_all_app (es es' : list raw_event) :
  encode_all (es ++ es') = encode_all es ++ encode_all es'.
Proof. unfold encode_all. rewrite map_app, concat_app. reflexivity. Qed.

Lemma printed_slices (es : list raw_event) :
  forall (p : Z) (names : list (list byte)),
    length names = length es ->
    map slice_of (dispatches (printed p es names)) = boundaries p es /\
    map header_of (dispatches (printed p es names)) = map header es.
Proof.
  induction es as [|e es IH]; intros p [|nm names] Hl; try discriminate;
    [split; reflexivity|].
  injection Hl as Hl. cbn [printed boundaries map].
  destruct (IH (p + Z.of_nat (length (encode e))) names Hl) as [Hb Hh].
  cbn [dispatches flat_map app map]. fold (dispatches (printed (p + Z.of_nat (length (encode e))) es names)).
  rewrite Hb, Hh. unfold slice_of, header_of, header, report_of.
  cbn [fst snd r_len r_wd r_mask r_cookie].
  rewrite length_encode. split; reflexivity.
Qed.

(** The loop walks through whole records one by one: after [length es]
    iterations it stands at the end of [es], having printed every record
    at its own boundary, and goes on from there. *)
Lemma segment_loop_records (es : list raw_event) :
  forall (pre post : list byte) (n : Z) (k : nat),
    Forall (fun e => valid_event e = true) es ->
    scans_end es post = true ->
    Z.of_nat (length pre + length (encode_all es)) <= n ->
    let m := pre ++ encode_all es ++ post in
    let rest := segment_loop k m n (Z.of_nat (length pre + length (encode_all es))) in
    exists t names,
      segment_loop (length es + k) m n (Z.of_nat (length pre)) =
        (t ++ fst rest, snd rest) /\
      length names = length es /\
      observable t = printed (Z.of_nat (length pre)) es names.
Proof.
  induction es as [|e es IH]; intros pre post n k Hv Hs Hn m rest.
  - exists [], []. subst rest m. cbn [encode_all map concat length] in *.
    rewrite Nat.add_0_r. simpl. split; [|split; reflexivity].
    destruct (segment_loop k _ _ _); reflexivity.
  - inversion Hv as [|? ? Hve Hves]; subst.
    cbn [scans_end] in Hs. apply andb_true_iff in Hs. destruct Hs as [Hs1 Hs2].
    rewrite encode_all_cons in *. rewrite length_app in Hn.
    pose proof (length_encode e) as Le.
    destruct (valid_event_spec e Hve) as (_ & _ & _ & Hlen).
    assert (Hm : m = pre ++ encode e ++ (encode_all es ++ post))
      by (subst m; rewrite ?encode_all_cons, <- ?app_assoc; reflexivity).
    assert (Hm' : m = (pre ++ encode e) ++ encode_all es ++ post)
      by (rewrite Hm, <- app_assoc; reflexivity).
    destruct (dump_at pre (encode_all es ++ post) e (Z.of_nat (length pre))
                eq_refl Hve) as (td & rd & Ed & Hcase & Hret).
    specialize (Hret Hs1). subst rd.
    destruct Hcase as [[Hbad _] | [_ [nm Htd]]]; [discriminate|].
    destruct (header_at pre (encode_all es ++ post) e (Z.of_nat (length pre)) eq_refl)
      as (_ & _ & _ & El & _).
    rewrite <- Hm in Ed, El.
    destruct (IH (pre ++ encode e) post n k Hves Hs2) as (t & names & Et & Hl & Ho).
    { rewrite length_app. lia. }
    rewrite <- Hm' in Et.
    replace (Z.of_nat (length (pre ++ encode e) + length (encode_all es)))
      with (Z.of_nat (length pre + length (encode e ++ encode_all es))) in Et
      by (rewrite !length_app; lia).
    fold rest in Et.
    cbn [length Nat.add segment_loop].
    destruct (Z.ltb_spec (Z.of_nat (length pre)) n) as [_|Hge];
      [|unfold sizeof_inotify_event in Le; lia].
    rewrite Ed, bind_Ret, El, bind_Ret.
    rewrite Z.mod_small by exact Hlen.
    rewrite size_t_advance by exact Hlen.
    replace (Z.of_nat (length pre) + (sizeof_inotify_event + len e))
      with (Z.of_nat (length (pre ++ encode e)))
      by (rewrite length_app; lia).
    rewrite Et. cbn [fst snd].
    exists (td ++ [MemRead (Z.of_nat (length pre) + 12) 4] ++ t), (nm :: names).
    split; [rewrite <- !app_assoc; reflexivity|].
    split; [cbn [length]; rewrite Hl; reflexivity|].
    rewrite !observable_app, Htd, Ho. cbn [printed app observable filter].
    rewrite length_app, Nat2Z.inj_add. reflexivity.
Qed.

Lemma boundaries_slices (es : list raw_event) :
  forall (pre post : list byte),
    map (slice_bytes (pre ++ encode_all es ++ post))
        (boundaries (Z.of_nat (length pre)) es) = map encode es.
Proof.
  induction es as [|e es IH]; intros pre post; [reflexivity|].
  cbn [boundaries map]. rewrite encode_all_cons. f_equal.
  - unfold slice_bytes. cbn [fst snd]. rewrite !Nat2Z.id.
    rewrite skipn_length_app, <- app_assoc. apply firstn_length_app.
  - rewrite <- Nat2Z.inj_add, <- length_app.
    rewrite <- (IH (pre ++ encode e) post).
    rewrite <- !app_assoc. reflexivity.
Qed.

Lemma boundaries_length (es : list raw_event) (p : Z) :
  length (boundaries p es) = length es.
Proof. revert p; induction es as [|e es IH]; intros p; simpl; [|rewrite IH]; reflexivity. Qed.

Lemma boundaries_app (es es' : list raw_event) :
  forall p : Z,
    boundaries p (es ++ es') =
    boundaries p es ++ boundaries (p + Z.of_nat (length (encode_all es))) es'.
Proof.
  induction es as [|e es IH]; intros p.
  - cbn. rewrite Z.add_0_r. reflexivity.
  - cbn [app boundaries]. rewrite IH, encode_all_cons, length_app, Nat2Z.inj_add.
    rewrite Z.add_assoc. reflexivity.
Qed.

(** With more fuel than bytes ahead the loop is never cut short, and each
    record it dispatches lies at least one header behind the previous. *)
Lemma segment_loop_progress (fuel : nat) :
  forall (m : list byte) (n p : Z),
    (Z.to_nat (n - p) < fuel)%nat ->
    exists t r,
      segment_loop fuel m n p = (t, r) /\
      r <> Stop OutOfFuel /\
      StronglySorted (fun d d' => fst d + sizeof_inotify_event <= fst d') (dispatches t) /\
      Forall (fun d => p <= fst d < n) (dispatches t).
Proof.
  induction fuel as [|fuel IH]; intros m n p Hf; [lia|].
  cbn [segment_loop].
  destruct (Z.ltb_spec p n) as [Hlt|Hge].
  2:{ exists [], (Ret p). repeat split; try constructor. discriminate. }
  destruct (dump_cases m p)
    as (td & [(Ed & Ho) | [(r & Ed & Ho & _) | (r & nm & Ed & Ho & El & _)]]);
    rewrite Ed.
  { rewrite bind_Stop. exists td, (Stop Fault).
    rewrite <- dispatches_observable, Ho.
    repeat split; try constructor. discriminate. }
  { rewrite bind_Stop. exists td, (Stop Fault).
    rewrite <- dispatches_observable, Ho. cbn [dispatches flat_map app].
    split; [reflexivity|]. split; [discriminate|].
    split; repeat constructor; cbn; lia. }
  rewrite bind_Ret.
  destruct (load32_cases m (p + 12)) as [Ef | (v & Ev & Hv)];
    [rewrite Ef in El; discriminate|].
  rewrite Ev. rewrite bind_Ret. rewrite size_t_advance by exact Hv.
  destruct (IH m n (p + (sizeof_inotify_event + v))) as (t & r' & Et & Hr & Hs & Hb).
  { unfold sizeof_inotify_event. lia. }
  rewrite Et. cbn [fst snd]. eexists _, r'. split; [reflexivity|].
  split; [exact Hr|].
  rewrite !dispatches_app, <- (dispatches_observable td), Ho.
  cbn [dispatches flat_map app].
  split.
  - constructor; [exact Hs|].
    eapply Forall_impl; [|exact Hb]. intros d Hd.
    unfold sizeof_inotify_event in *. cbn [fst] in *. lia.
  - constructor; [cbn; lia|].
    eapply Forall_impl; [|exact Hb]. intros d Hd.
    unfold sizeof_inotify_event in *. cbn [fst] in *. lia.
Qed.


(** ** Where the loop stands when it is left *)

Lemma bind_stop_inv {A B : Type} (m : M A) (f : A -> M B) (t : list event) (w : stop) :
  bind m f = (t, Stop w) ->
  m = (t, Stop w) \/
  exists t1 a t2, m = (t1, Ret a) /\ f a = (t2, Stop w) /\ t = t1 ++ t2.
Proof.
  destruct m as [t1 [a|w1]]; intros H.
  - right. rewrite bind_Ret in H. destruct (f a) as [t2 r2] eqn:E.
    cbn [fst snd] in H. injection H as <- ->.
    exists t1, a, t2. split; [reflexivity|]. split; [exact E | reflexivity].
  - left. rewrite bind_Stop in H. injection H as <- <-. reflexivity.
Qed.

(** A load that does not return has touched bytes outside the
    allocation; one that returns has read the four bytes at [a], which
    lie inside. *)
Lemma load32_stop (m : list byte) (a : Z) (t : list event) (w : stop) :
  load32 m a = (t, Stop w) ->
  w = Fault /\ t = [MemRead a 4] /\ outside m (a, 4%nat) = true.
Proof.
  unfold load32, emit, halt, ret, bind, outside. cbn [fst snd].
  destruct (Z.ltb_spec a 0) as [Hn|Hp].
  - intros H. injection H as <- <-. repeat split.
  - destruct (Nat.eqb_spec (length (firstn 4 (skipn (Z.to_nat a) m))) 4) as [E|E];
      intros H; [discriminate|].
    injection H as <- <-. repeat split.
    rewrite length_firstn, length_skipn in E.
    cbn [orb]. apply Z.ltb_lt. lia.
Qed.

Lemma load32_ret (m : list byte) (a : Z) (t : list event) (v : Z) :
  load32 m a = (t, Ret v) ->
  0 <= a /\ a + 4 <= Z.of_nat (length m) /\
  v = le_combine (firstn 4 (skipn (Z.to_nat a) m)).
Proof.
  unfold load32, emit, halt, ret, bind. cbn [fst snd].
  destruct (Z.ltb_spec a 0) as [Hn|Hp]; [discriminate|].
  destruct (Nat.eqb_spec (length (firstn 4 (skipn (Z.to_nat a) m))) 4) as [E|E];
    intros H; [|discriminate].
  injection H as <- <-.
  rewrite length_firstn, length_skipn in E. repeat split; lia.
Qed.

(** A scan that does not return has read the byte behind the last one of
    the allocation. *)
Lemma c_str_from_stop (l : list byte) :
  forall (a : Z) (t : list event) (w : stop),
    c_str_from l a = (t, Stop w) ->
    w = Fault /\ In (a + Z.of_nat (length l), 1%nat) (mem_reads t).
Proof.
  induction l as [|b l IH]; intros a t w; cbn [c_str_from]; unfold emit;
    rewrite bind_Ret.
  - cbn. intros H. injection H as <- <-. split; [reflexivity|].
    left. f_equal. lia.
  - destruct (Byte.eqb b Byte.x00); [discriminate|].
    destruct (c_str_from l (a + 1)) as [t' [s|w']] eqn:E.
    + rewrite bind_Ret. discriminate.
    + rewrite bind_Stop. cbn [fst snd]. intros H. injection H as <- <-.
      destruct (IH (a + 1) t' w' E) as [-> Hin]. split; [reflexivity|].
      cbn [app mem_reads flat_map]. right.
      replace (a + Z.of_nat (length (b :: l))) with (a + 1 + Z.of_nat (length l))
        by (cbn [length]; lia).
      exact Hin.
Qed.

Lemma c_str_stop (m : list byte) (a : Z) (t : list event) (w : stop) :
  c_str m a = (t, Stop w) ->
  w = Fault /\ exists rd, In rd (mem_reads t) /\ outside m rd = true.
Proof.
  unfold c_str. destruct (Z.ltb_spec a 0) as [Hn|Hp].
  - unfold emit, halt. rewrite bind_Ret. cbn [fst snd app].
    intros H. injection H as <- <-. split; [reflexivity|].
    exists (a, 1%nat). split; [left; reflexivity|].
    unfold outside. cbn [fst snd]. apply orb_true_iff. left. apply Z.ltb_lt. exact Hn.
  - intros H. destruct (c_str_from_stop _ _ _ _ H) as [-> Hin].
    split; [reflexivity|]. eexists. split; [exact Hin|].
    unfold outside. cbn [fst snd]. apply orb_true_iff. right. apply Z.ltb_lt.
    rewrite length_skipn. lia.
Qed.

(** A scan that returns has met a NUL inside the allocation. *)
Lemma c_str_from_ret (l : list byte) :
  forall (a : Z) (t : list event) (s : list byte),
    c_str_from l a = (t, Ret s) -> has_nul l = true.
Proof.
  induction l as [|b l IH]; intros a t s; cbn [c_str_from]; unfold emit;
    rewrite bind_Ret; [discriminate|].
  cbn [has_nul existsb]. destruct (Byte.eqb b Byte.x00); [reflexivity|].
  destruct (c_str_from l (a + 1)) as [t' [s'|w']] eqn:E.
  - intros _. exact (IH _ _ _ E).
  - rewrite bind_Stop. discriminate.
Qed.

Lemma c_str_ret (m : list byte) (a : Z) (t : list event) (s : list byte) :
  c_str m a = (t, Ret s) ->
  0 <= a /\ has_nul (skipn (Z.to_nat a) m) = true.
Proof.
  unfold c_str. destruct (Z.ltb_spec a 0) as [Hn|Hp].
  - unfold emit, halt. rewrite bind_Ret. discriminate.
  - intros H. split; [exact Hp | exact (c_str_from_ret _ _ _ _ H)].
Qed.

Lemma outside_app (m : list byte) (t u : list event) :
  (exists rd, In rd (mem_reads t) /\ outside m rd = true) \/
  (exists rd, In rd (mem_reads u) /\ outside m rd = true) ->
  exists rd, In rd (mem_reads (t ++ u)) /\ outside m rd = true.
Proof.
  rewrite mem_reads_app.
  intros [(rd & Hin & Ho) | (rd & Hin & Ho)]; exists rd;
    (split; [apply in_or_app; tauto | exact Ho]).
Qed.

(** A call of [dump_inotify_event] that does not return has read outside
    the allocation. *)
Lemma dump_stop (m : list byte) (p : Z) (t : list event) (w : stop) :
  dump_inotify_event m p = (t, Stop w) ->
  w = Fault /\ exists rd, In rd (mem_reads t) /\ outside m rd = true.
Proof.
  unfold dump_inotify_event. intros H.
  apply bind_stop_inv in H. destruct H as [H | (t1 & wd & u1 & E1 & H & ->)].
  { destruct (load32_stop _ _ _ _ H) as (-> & -> & Ho).
    split; [reflexivity|]. eexists. split; [left; reflexivity | exact Ho]. }
  apply bind_stop_inv in H. destruct H as [H | (t2 & mask & u2 & E2 & H & ->)].
  { destruct (load32_stop _ _ _ _ H) as (-> & -> & Ho).
    split; [reflexivity|]. apply outside_app. right.
    eexists. split; [left; reflexivity | exact Ho]. }
  apply bind_stop_inv in H. destruct H as [H | (t3 & cookie & u3 & E3 & H & ->)].
  { destruct (load32_stop _ _ _ _ H) as (-> & -> & Ho).
    split; [reflexivity|]. do 2 (apply outside_app; right).
    eexists. split; [left; reflexivity | exact Ho]. }
  apply bind_stop_inv in H. destruct H as [H | (t4 & len & u4 & E4 & H & ->)].
  { destruct (load32_stop _ _ _ _ H) as (-> & -> & Ho).
    split; [reflexivity|]. do 3 (apply outside_app; right).
    eexists. split; [left; reflexivity | exact Ho]. }
  apply bind_stop_inv in H. destruct H as [H | (t5 & [] & u5 & E5 & H & ->)];
    [discriminate H|].
  apply bind_stop_inv in H. destruct H as [H | (t6 & nm & u6 & E6 & H & ->)].
  { destruct (c_str_stop _ _ _ _ H) as (-> & Ho).
    split; [reflexivity|]. do 5 (apply outside_app; right). exact Ho. }
  apply bind_stop_inv in H. destruct H as [H | (t7 & [] & u7 & E7 & H & ->)];
    discriminate H.
Qed.

(** The record loop stops on a fault only when a read has left the
    allocation. *)
Lemma segment_loop_fault (fuel : nat) :
  forall (m : list byte) (n p : Z) (t : list event),
    segment_loop fuel m n p = (t, Stop Fault) ->
    exists rd, In rd (mem_reads t) /\ outside m rd = true.
Proof.
  induction fuel as [|fuel IH]; intros m n p t; [discriminate|].
  cbn [segment_loop]. destruct (p <? n); [|discriminate].
  intros H.
  apply bind_stop_inv in H. destruct H as [H | (t1 & [] & u1 & E1 & H & ->)].
  { exact (proj2 (dump_stop _ _ _ _ H)). }
  apply bind_stop_inv in H. destruct H as [H | (t2 & v & u2 & E2 & H & ->)].
  { destruct (load32_stop _ _ _ _ H) as (_ & -> & Ho).
    apply outside_app. right. eexists. split; [left; reflexivity | exact Ho]. }
  do 2 (apply outside_app; right). exact (IH _ _ _ _ H).
Qed.


(** The loop makes no system call. *)
Lemma segment_loop_calls (c : syscall) (fuel : nat) :
  forall (m : list byte) (n p : Z),
    calls c (fst (segment_loop fuel m n p)) = 0%nat.
Proof.
  induction fuel as [|fuel IH]; intros m n p; [reflexivity|].
  cbn [segment_loop]. destruct (p <? n); [|reflexivity].
  pose proof (dump_calls c m p) as Hd.
  destruct (dump_inotify_event m p) as [td [[]|w]]; cbn [fst] in Hd;
    [|rewrite bind_Stop; exact Hd].
  rewrite bind_Ret. cbn [fst]. rewrite calls_app, Hd.
  destruct (load32_cases m (p + 12)) as [El | (v & El & _)]; rewrite El.
  - rewrite bind_Stop. destruct c; reflexivity.
  - rewrite bind_Ret. cbn [fst]. rewrite calls_app, IH. destruct c; reflexivity.
Qed.

(** Whole records, and nothing else, up to [bytesRead], with every name
    scan ending inside the allocation: the loop prints each record at its
    boundary and stops at the end. *)
Lemma segment_loop_whole (es : list raw_event) (post : list byte) (fuel : nat) :
  Forall (fun e => valid_event e = true) es ->
  scans_end es post = true ->
  (length es < fuel)%nat ->
  let n := Z.of_nat (length (encode_all es)) in
  exists t names,
    segment_loop fuel (encode_all es ++ post) n 0 = (t, Ret n) /\
    length names = length es /\
    observable t = printed 0 es names.
Proof.
  intros Hv Hs Hf n.
  destruct (segment_loop_records es [] post n (fuel - length es) Hv Hs)
    as (t & names & Et & Hl & Ho); [cbn; lia|].
  cbn [length Nat.add app] in Et, Ho.
  replace (length es + (fuel - length es))%nat with fuel in Et by lia.
  destruct (fuel - length es)%nat as [|k] eqn:Ek; [lia|].
  cbn [segment_loop] in Et. fold n in Et. rewrite Z.ltb_irrefl in Et.
  cbn [ret fst snd] in Et. rewrite app_nil_r in Et.
  exists t, names. repeat split; assumption.
Qed.

(** ** Where a name scan must end *)

Lemma has_nul_app (a b : list byte) :
  has_nul (a ++ b) = has_nul a || has_nul b.
Proof. unfold has_nul. apply existsb_app. Qed.

(** A length below 2^24 has a zero top byte. *)
Lemma le_split_small_nul (v : Z) :
  0 <= v < 2 ^ 24 -> has_nul (le_split 4 v) = true.
Proof.
  intros H.
  change (le_split 4 v) with
    [byte.of_Z v; byte.of_Z (Z.shiftr v 8); byte.of_Z (Z.shiftr (Z.shiftr v 8) 8);
     byte.of_Z (Z.shiftr (Z.shiftr (Z.shiftr v 8) 8) 8)].
  assert (E : Z.shiftr (Z.shiftr (Z.shiftr v 8) 8) 8 = 0).
  { rewrite !Z.shiftr_shiftr by lia. rewrite Z.shiftr_div_pow2 by lia.
    apply Z.div_small. exact H. }
  rewrite E. apply existsb_exists. exists Byte.x00.
  split; [|reflexivity]. do 3 right. left. reflexivity.
Qed.

Lemma encode_small_nul (e : raw_event) :
  0 <= len e < 2 ^ 24 -> has_nul (encode e) = true.
Proof.
  intros H. unfold encode.
  rewrite !has_nul_app, (le_split_small_nul (len e) H).
  rewrite !orb_true_r. reflexivity.
Qed.

(** A NUL behind the records ends every scan. *)
Lemma scans_end_nul (es : list raw_event) (post : list byte) :
  has_nul post = true -> scans_end es post = true.
Proof.
  intros H. induction es as [|e es IH]; [reflexivity|].
  cbn [scans_end]. rewrite IH, !has_nul_app, H, !orb_true_r. reflexivity.
Qed.

(** Whole records that fit into the buffer: every record is dispatched at
    its boundary; only the name scan of the last one can run off the
    allocation. *)
Lemma segment_loop_fitting (es : list raw_event) (stale : list byte) (fuel : nat) :
  Forall (fun e => valid_event e = true) es ->
  Z.of_nat (length (encode_all es)) <= minBufferSize ->
  (length es < fuel)%nat ->
  let n := Z.of_nat (length (encode_all es)) in
  exists t r,
    segment_loop fuel (encode_all es ++ stale) n 0 = (t, r) /\
    map slice_of (dispatches t) = boundaries 0 es /\
    map header_of (dispatches t) = map header es /\
    (r = Ret n \/ r = Stop Fault).
Proof.
  intros Hv Hfit Hf n.
  destruct es as [|e0 es0] using rev_ind.
  { destruct fuel as [|fuel]; [cbn in Hf; lia|].
    exists [], (Ret 0). repeat split; try reflexivity. left. reflexivity. }
  clear IHes0. rename es0 into es, e0 into e.
  apply Forall_app in Hv. destruct Hv as [Hves Hve].
  inversion Hve as [|? ? Hve' _]; subst. clear Hve. rename Hve' into Hve.
  rewrite length_app in Hf. cbn [length] in Hf.
  assert (Ea : encode_all (es ++ [e]) = encode_all es ++ encode e).
  { rewrite encode_all_app. unfold encode_all at 2. cbn [map concat].
    rewrite app_nil_r. reflexivity. }
  pose proof (length_encode e) as Le.
  destruct (valid_event_spec e Hve) as (_ & _ & _ & Hlen).
  assert (Hn : n = Z.of_nat (length (encode_all es)) + (sizeof_inotify_event + len e)).
  { subst n. rewrite Ea, length_app. lia. }
  assert (Hsmall : 0 <= len e < 2 ^ 24).
  { subst n. rewrite Ea, length_app in Hfit.
    unfold minBufferSize, sizeof_inotify_event, NAME_MAX in *.
    change (2 ^ 24) with 16777216. lia. }
  assert (Hm : encode_all (es ++ [e]) ++ stale =
               [] ++ encode_all es ++ (encode e ++ stale))
    by (rewrite Ea, <- app_assoc; reflexivity).
  rewrite Hm.
  destruct (segment_loop_records es [] (encode e ++ stale) n (fuel - length es) Hves)
    as (t & names & Et & Hl & Ho).
  { apply scans_end_nul. rewrite has_nul_app, (encode_small_nul e Hsmall). reflexivity. }
  { cbn [length Nat.add]. unfold sizeof_inotify_event in Hn. lia. }
  cbn [length Nat.add] in Et, Ho. change (Z.of_nat 0) with 0 in Ho.
  replace (length es + (fuel - length es))%nat with fuel in Et by lia.
  destruct (printed_slices es 0 names Hl) as [Hb Hh].
  rewrite <- Ho, dispatches_observable in Hb, Hh.
  destruct (fuel - length es)%nat as [|[|k]] eqn:Ek; [lia|lia|].
  set (q := Z.of_nat (length (encode_all es))) in *.
  set (m := [] ++ encode_all es ++ encode e ++ stale) in *.
  destruct (dump_at (encode_all es) stale e q eq_refl Hve)
    as (td & rd & Ed & Hcase & _).
  change (encode_all es ++ encode e ++ stale) with m in Ed.
  destruct (header_at (encode_all es) stale e q eq_refl) as (_ & _ & _ & El & _).
  change (encode_all es ++ encode e ++ stale) with m in El.
  rewrite Z.mod_small in El by exact Hlen.
  assert (Hlast : exists tl rl,
            segment_loop (S (S k)) m n q = (tl, rl) /\
            dispatches tl = [(q, report_of e)] /\
            (rl = Ret n \/ rl = Stop Fault)).
  { cbn [segment_loop].
    destruct (Z.ltb_spec q n); [|unfold sizeof_inotify_event in Hn; lia].
    rewrite Ed.
    destruct Hcase as [[-> Hod] | [-> [nm Hod]]].
    - rewrite bind_Stop. do 2 eexists. split; [reflexivity|].
      split; [|right; reflexivity].
      rewrite <- dispatches_observable, Hod. reflexivity.
    - rewrite bind_Ret, El, bind_Ret, size_t_advance by exact Hlen.
      rewrite <- Hn, Z.ltb_irrefl. cbn [ret fst snd].
      do 2 eexists. split; [reflexivity|]. split; [|left; reflexivity].
      rewrite !dispatches_app, <- (dispatches_observable td), Hod. reflexivity. }
  destruct Hlast as (tl & rl & Etl & Hdl & Hrl).
  rewrite Etl in Et. cbn [fst snd] in Et.
  exists (t ++ tl), rl. split; [exact Et|].
  rewrite dispatches_app, !map_app, Hb, Hh, Hdl.
  rewrite boundaries_app. cbn [map boundaries].
  unfold slice_of, header_of, header, report_of.
  cbn [fst snd r_len r_wd r_mask r_cookie]. rewrite Le, Z.add_0_l.
  repeat split; try reflexivity. exact Hrl.
Qed.

(** ** The run loop *)

Lemma loop_body_read_error (s : state) (e : Z) (sig : bool) :
  loop_body s (mkStep (ReadErr e) sig) =
  ([Sys SYS_read],
   Ret (let s' := deliver (mkStep (ReadErr e) sig) (sys_read (ReadErr e) s) in
        if e =? EINTR then Continue s' else Break s')).
Proof.
  unfold loop_body, emit. rewrite bind_Ret. cbn [outcome].
  destruct sig; cbn; destruct (e =? EINTR); reflexivity.
Qed.

Lemma size_t_small (z : Z) : 0 <= z < 2 ^ 64 -> size_t z = z.
Proof. intros H. unfold size_t. apply Z.mod_small. exact H. Qed.

Lemma loop_body_short_read (s : state) (data : list byte) (sig : bool) :
  Z.of_nat (length data) < sizeof_inotify_event ->
  loop_body s (mkStep (ReadOk data) sig) =
  ([Sys SYS_read],
   Ret (Break (deliver (mkStep (ReadOk data) sig) (sys_read (ReadOk data) s)))).
Proof.
  intros H. unfold loop_body, emit. rewrite bind_Ret. cbn [outcome].
  assert (B : bytesRead (deliver (mkStep (ReadOk data) sig) (sys_read (ReadOk data) s))
              = Z.of_nat (length data)) by (destruct sig; reflexivity).
  rewrite B.
  destruct (Z.ltb_spec (Z.of_nat (length data)) 0); [lia|].
  rewrite size_t_small by (unfold sizeof_inotify_event in H;
                           change (2 ^ 64) with 18446744073709551616; lia).
  destruct (Z.ltb_spec (Z.of_nat (length data)) sizeof_inotify_event); [|lia].
  reflexivity.
Qed.

Lemma loop_body_full_read (s : state) (data : list byte) (sig : bool) :
  sizeof_inotify_event <= Z.of_nat (length data) < 2 ^ 64 ->
  let s' := deliver (mkStep (ReadOk data) sig) (sys_read (ReadOk data) s) in
  let n := Z.of_nat (length data) in
  loop_body s (mkStep (ReadOk data) sig) =
  (Sys SYS_read :: Cout "Completed one read..."%string ::
     fst (segment_loop (segment_fuel n) (data ++ skipn (length data) (mem s)) n 0),
   match snd (segment_loop (segment_fuel n) (data ++ skipn (length data) (mem s)) n 0) with
   | Ret _ => Ret (Continue s')
   | Stop w => Stop w
   end).
Proof.
  intros H s' n. unfold loop_body, emit. rewrite bind_Ret. cbn [outcome]. fold s'.
  assert (B : bytesRead s' = n) by (subst s'; destruct sig; reflexivity).
  assert (Hm : mem s' = data ++ skipn (length data) (mem s))
    by (subst s'; destruct sig; reflexivity).
  rewrite B, Hm.
  destruct (Z.ltb_spec n 0); [subst n; lia|].
  rewrite size_t_small by (subst n; lia).
  destruct (Z.ltb_spec n sizeof_inotify_event); [subst n; lia|].
  rewrite bind_Ret.
  destruct (segment_loop (segment_fuel n) _ n 0) as [t [a|w]];
    [rewrite bind_Ret | rewrite bind_Stop];
    cbn [fst snd ret app]; rewrite ?app_nil_r; reflexivity.
Qed.

Lemma run_loop_flag (env : list env_step) (s : state) :
  gblExitRequested s = true -> run_loop env s = ret s.
Proof. intros H. destruct env; cbn [run_loop]; rewrite H; reflexivity. Qed.

(** A prefix the loop runs through can be split off. *)
Lemma run_loop_app (pre : list env_step) :
  forall (env : list env_step) (s s' : state) (t : list event),
    run_prefix pre s = Some (t, s') ->
    run_loop (pre ++ env) s = (t ++ fst (run_loop env s'), snd (run_loop env s')).
Proof.
  induction pre as [|e pre IH]; intros env s s' t H; cbn [run_prefix] in H.
  - injection H as <- <-. cbn [app]. destruct (run_loop env s); reflexivity.
  - cbn [app run_loop].
    destruct (gblExitRequested s); [discriminate|].
    destruct (loop_body s e) as [tb [[s1|s1]|w]]; try discriminate.
    destruct (run_prefix pre s1) as [[t1 s2]|] eqn:E; [|discriminate].
    injection H as <- <-.
    rewrite bind_Ret, (IH env s1 s2 t1 E). cbn [fst snd].
    rewrite app_assoc. reflexivity.
Qed.

(** The loop itself makes no call other than [read]. *)
Lemma loop_body_calls (c : syscall) (s : state) (e : env_step) :
  c <> SYS_read -> calls c (fst (loop_body s e)) = 0%nat.
Proof.
  intros Hc. unfold loop_body, emit. rewrite bind_Ret. cbn [fst].
  rewrite calls_app.
  assert (H0 : calls c [Sys SYS_read] = 0%nat) by (destruct c; try reflexivity; congruence).
  rewrite H0. cbn [Nat.add].
  destruct (bytesRead _ <? 0).
  - destruct (errno _ =? EINTR); reflexivity.
  - destruct (size_t _ <? sizeof_inotify_event); [reflexivity|].
    rewrite bind_Ret. cbn [fst]. rewrite calls_app.
    pose proof (segment_loop_calls c
      (segment_fuel (bytesRead (deliver e (sys_read (outcome e) s))))
      (mem (deliver e (sys_read (outcome e) s)))
      (bytesRead (deliver e (sys_read (outcome e) s))) 0) as Hs.
    destruct (segment_loop _ _ _ _) as [ts [a|w]]; cbn [fst snd] in *.
    + rewrite bind_Ret. cbn [fst]. rewrite calls_app, Hs.
      destruct c; reflexivity.
    + rewrite bind_Stop. cbn [fst]. rewrite Hs. destruct c; reflexivity.
Qed.

Lemma run_prefix_calls (c : syscall) (pre : list env_step) :
  forall (s s' : state) (t : list event),
    c <> SYS_read -> run_prefix pre s = Some (t, s') -> calls c t = 0%nat.
Proof.
  induction pre as [|e pre IH]; intros s s' t Hc H; cbn [run_prefix] in H.
  - injection H as <- <-. reflexivity.
  - destruct (gblExitRequested s); [discriminate|].
    pose proof (loop_body_calls c s e Hc) as Hb.
    destruct (loop_body s e) as [tb [[s1|s1]|w]]; try discriminate.
    destruct (run_prefix pre s1) as [[t1 s2]|] eqn:E; [|discriminate].
    injection H as <- <-. rewrite calls_app. cbn [fst] in Hb.
    rewrite Hb, (IH s1 s2 t1 Hc E). reflexivity.
Qed.

(** ** What a completed call of [dump_inotify_event] printed *)

Lemma dump_ret (m : list byte) (p : Z) (t : list event) (u : unit) :
  dump_inotify_event m p = (t, Ret u) ->
  exists r nm,
    observable t = [Dispatch p r; CoutName nm;
                    CoutIncludes (mask_names codes (r_mask r))] /\
    load32 m (p + 12) = ([MemRead (p + 12) 4], Ret (r_len r)) /\
    snd (c_str m (p + sizeof_inotify_event)) = Ret nm.
Proof.
  intros E.
  destruct (dump_cases m p)
    as (t' & [(E' & _) | [(r & E' & _) | (r & nm & E' & Ho & El & Es)]]);
    rewrite E' in E; try discriminate.
  injection E as <-. exists r, nm. repeat split; assumption.
Qed.

(** A field that lies inside the allocation is read without a fault. *)
Lemma load32_ok (m : list byte) (a : Z) :
  0 <= a -> a + 4 <= Z.of_nat (length m) ->
  load32 m a =
  ([MemRead a 4], Ret (le_combine (firstn 4 (skipn (Z.to_nat a) m)))).
Proof.
  intros Ha Hb. unfold load32, emit. rewrite bind_Ret.
  destruct (Z.ltb_spec a 0); [lia|].
  assert (L : length (firstn 4 (skipn (Z.to_nat a) m)) = 4%nat)
    by (rewrite length_firstn, length_skipn; lia).
  rewrite L. reflexivity.
Qed.

(** A call on sixteen bytes inside the allocation, with a NUL somewhere
    behind them, prints a header whose length field is the four bytes at
    offset 12. *)
Lemma dump_ok (m : list byte) (p : Z) :
  0 <= p -> p + sizeof_inotify_event <= Z.of_nat (length m) ->
  has_nul (skipn (Z.to_nat (p + sizeof_inotify_event)) m) = true ->
  exists t r nm,
    dump_inotify_event m p = (t, Ret tt) /\
    observable t = [Dispatch p r; CoutName nm;
                    CoutIncludes (mask_names codes (r_mask r))] /\
    r_len r = le_combine (firstn 4 (skipn (Z.to_nat (p + 12)) m)).
Proof.
  intros Hp Hb Hn.
  destruct (c_str_ok m (p + sizeof_inotify_event)) as (ts & s & Hts & Es);
    [unfold sizeof_inotify_event; lia | exact Hn |].
  unfold sizeof_inotify_event in Hb.
  unfold dump_inotify_event.
  rewrite (load32_ok m p), bind_Ret by lia.
  rewrite (load32_ok m (p + 4)), bind_Ret by lia.
  rewrite (load32_ok m (p + 8)), bind_Ret by lia.
  rewrite (load32_ok m (p + 12)), bind_Ret by lia.
  unfold emit. rewrite bind_Ret, Es, !bind_Ret. cbn [fst snd].
  eexists _, (mkReport _ _ _ _), _. split; [reflexivity|].
  split; [rewrite !observable_app, Hts; reflexivity | reflexivity].
Qed.

(** * The claims *)

(** ** Segmentation *)

(** C1.  A buffer that consists of K concatenated valid records, whose
    total length is the number of bytes read (at most the size of the
    buffer), is cut by the record loop into exactly K slices; each slice
    covers exactly the bytes of its record (header plus name-length
    bytes), and the records are handed to [dump_inotify_event] in the
    order of concatenation, each printed with its own header fields.  The
    loop then returns with the offset at the end of the bytes read; the
    one other outcome is that the reporter's C-string scan for the name of
    the last record runs off the allocation, after all K records have been
    dispatched. *)
Theorem segment_loop_whole_records :
  forall (es : list raw_event) (stale : list byte) (fuel : nat),
    Forall (fun e => valid_event e = true) es ->
    Z.of_nat (length (encode_all es)) <= minBufferSize ->
    (length es < fuel)%nat ->
    exists t r,
      segment_loop fuel (encode_all es ++ stale)
        (Z.of_nat (length (encode_all es))) 0 = (t, r) /\
      length (dispatches t) = length es /\
      map (slice_bytes (encode_all es ++ stale)) (map slice_of (dispatches t)) =
        map encode es /\
      map slice_of (dispatches t) = boundaries 0 es /\
      map header_of (dispatches t) = map header es /\
      (r = Ret (Z.of_nat (length (encode_all es))) \/ r = Stop Fault) /\
      (scans_end es stale = true -> r = Ret (Z.of_nat (length (encode_all es)))).
Proof.
  intros es stale fuel Hv Hfit Hf.
  destruct (segment_loop_fitting es stale fuel Hv Hfit Hf) as (t & r & Et & Hb & Hh & Hr).
  exists t, r. split; [exact Et|].
  split; [rewrite <- (length_map slice_of), Hb; apply boundaries_length|].
  split; [rewrite Hb; exact (boundaries_slices es [] stale)|].
  split; [exact Hb|]. split; [exact Hh|]. split; [exact Hr|].
  intros Hs.
  destruct (segment_loop_whole es stale fuel Hv Hs Hf) as (t' & names & Et' & _).
  rewrite Et in Et'. injection Et' as _ ->. reflexivity.
Qed.

Lemma segment_loop_whole_records_witness :
  exists t r,
    segment_loop 49
      (encode_all [Sample.ev_create; Sample.ev_close] ++ Sample.zeros)
      (Z.of_nat (length (encode_all [Sample.ev_create; Sample.ev_close]))) 0 = (t, r) /\
    length (dispatches t) = length [Sample.ev_create; Sample.ev_close] /\
    map (slice_bytes (encode_all [Sample.ev_create; Sample.ev_close] ++ Sample.zeros))
        (map slice_of (dispatches t)) =
      map encode [Sample.ev_create; Sample.ev_close] /\
    map slice_of (dispatches t) = boundaries 0 [Sample.ev_create; Sample.ev_close] /\
    map header_of (dispatches t) = map header [Sample.ev_create; Sample.ev_close] /\
    (r = Ret (Z.of_nat (length (encode_all [Sample.ev_create; Sample.ev_close]))) \/
     r = Stop Fault) /\
    (scans_end [Sample.ev_create; Sample.ev_close] Sample.zeros = true ->
     r = Ret (Z.of_nat (length (encode_all [Sample.ev_create; Sample.ev_close])))).
Proof.
  apply (segment_loop_whole_records [Sample.ev_create; Sample.ev_close] Sample.zeros 49).
  - repeat constructor.
  - vm_compute. discriminate.
  - simpl; lia.
Defined.



(** ** Whole records followed by something else *)

Lemma has_nul_skipn (k : nat) (l : list byte) :
  has_nul (skipn k l) = true -> has_nul l = true.
Proof.
  intros H. rewrite <- (firstn_skipn k l), has_nul_app, H.
  apply orb_true_r.
Qed.

Lemma skipn_behind (a b : list byte) (k : Z) :
  0 <= k ->
  skipn (Z.to_nat (Z.of_nat (length a) + k)) (a ++ b) = skipn (Z.to_nat k) b.
Proof.
  intros Hk.
  replace (Z.to_nat (Z.of_nat (length a) + k)) with (Z.to_nat k + length a)%nat by lia.
  rewrite <- skipn_skipn, skipn_length_app. reflexivity.
Qed.

(** Whole records that fit into the buffer, followed by any bytes: the
    loop dispatches every record at its boundary and goes on behind the
    last one, unless the name scan of the last one runs off the
    allocation, which takes that no NUL follows it. *)
Lemma segment_loop_through (es : list raw_event) (post : list byte) (n : Z) (k : nat) :
  Forall (fun e => valid_event e = true) es ->
  Z.of_nat (length (encode_all es)) <= minBufferSize ->
  Z.of_nat (length (encode_all es)) <= n ->
  let m := encode_all es ++ post in
  let rest := segment_loop k m n (Z.of_nat (length (encode_all es))) in
  exists t,
    map slice_of (dispatches t) = boundaries 0 es /\
    (segment_loop (length es + k) m n 0 = (t ++ fst rest, snd rest) \/
     (segment_loop (length es + k) m n 0 = (t, Stop Fault) /\
      has_nul post = false)).
Proof.
  intros Hv Hfit Hn m rest.
  destruct es as [|e0 es0] using rev_ind.
  { exists []. split; [reflexivity|]. left.
    cbn [length Nat.add app]. subst rest m. cbn [encode_all map concat length app].
    change (Z.of_nat 0) with 0. destruct (segment_loop k post n 0); reflexivity. }
  clear IHes0. rename es0 into es, e0 into e.
  apply Forall_app in Hv. destruct Hv as [Hves Hve].
  inversion Hve as [|? ? Hve' _]; subst. clear Hve. rename Hve' into Hve.
  assert (Ea : encode_all (es ++ [e]) = encode_all es ++ encode e).
  { rewrite encode_all_app. unfold encode_all at 2. cbn [map concat].
    rewrite app_nil_r. reflexivity. }
  pose proof (length_encode e) as Le.
  destruct (valid_event_spec e Hve) as (_ & _ & _ & Hlen).
  set (q := Z.of_nat (length (encode_all es))).
  assert (Hq : Z.of_nat (length (encode_all (es ++ [e]))) =
               q + (sizeof_inotify_event + len e)).
  { subst q. rewrite Ea, length_app. lia. }
  assert (Hsmall : 0 <= len e < 2 ^ 24).
  { rewrite Hq in Hfit.
    unfold minBufferSize, sizeof_inotify_event, NAME_MAX in *.
    change (2 ^ 24) with 16777216. subst q. lia. }
  assert (Hm : m = [] ++ encode_all es ++ (encode e ++ post))
    by (subst m; rewrite Ea, <- app_assoc; reflexivity).
  destruct (segment_loop_records es [] (encode e ++ post) n (S k) Hves)
    as (t & names & Et & Hl & Ho).
  { apply scans_end_nul. rewrite has_nul_app, (encode_small_nul e Hsmall). reflexivity. }
  { cbn [length Nat.add]. fold q. unfold sizeof_inotify_event in Hq. lia. }
  cbn [length Nat.add] in Et, Ho. change (Z.of_nat 0) with 0 in Et, Ho.
  fold q in Et. rewrite <- Hm in Et.
  replace (length (es ++ [e]) + k)%nat with (length es + S k)%nat
    by (rewrite length_app; cbn [length]; lia).
  destruct (printed_slices es 0 names Hl) as [Hb _].
  rewrite <- Ho, dispatches_observable in Hb.
  destruct (dump_at (encode_all es) post e q eq_refl Hve)
    as (td & rd & Ed & Hcase & Hret).
  destruct (header_at (encode_all es) post e q eq_refl) as (_ & _ & _ & El & _).
  change (encode_all es ++ encode e ++ post) with ([] ++ encode_all es ++ encode e ++ post)
    in Ed, El.
  rewrite <- Hm in Ed, El.
  rewrite Z.mod_small in El by exact Hlen.
  assert (Hsl : map slice_of (dispatches (t ++ td)) = boundaries 0 (es ++ [e])).
  { rewrite dispatches_app, map_app, Hb, boundaries_app. f_equal.
    cbn [boundaries]. rewrite Z.add_0_l. fold q. rewrite Le.
    rewrite <- (dispatches_observable td).
    destruct Hcase as [[_ ->] | [_ [nm ->]]]; reflexivity. }
  cbn [segment_loop] in Et.
  destruct (Z.ltb_spec q n) as [_|Hge];
    [|unfold sizeof_inotify_event in Hq; lia].
  rewrite Ed in Et.
  destruct rd as [[]|wh].
  - rewrite bind_Ret, El, bind_Ret, size_t_advance in Et by exact Hlen.
    rewrite <- Hq in Et. fold rest in Et. cbn [fst snd] in Et.
    exists (t ++ td ++ [MemRead (q + 12) 4]). split.
    + rewrite app_assoc, dispatches_app. cbn [dispatches flat_map].
      rewrite app_nil_r. exact Hsl.
    + left. rewrite Et. rewrite <- !app_assoc. reflexivity.
  - rewrite bind_Stop in Et. cbn [fst snd] in Et.
    destruct Hcase as [[Hw _] | [Hw _]]; [|discriminate Hw].
    injection Hw as ->.
    exists (t ++ td). split; [exact Hsl|].
    right. split; [exact Et|].
    destruct (has_nul post) eqn:Hp; [|reflexivity].
    assert (Hx : has_nul (name e ++ post) = true)
      by (rewrite has_nul_app, Hp; apply orb_true_r).
    specialize (Hret Hx). discriminate Hret.
Qed.

(** The last iteration on a trailing fragment at [q]: what becomes of it
    depends on the header and the scanned name lying inside the
    allocation. *)
Lemma segment_loop_fragment (m : list byte) (n q : Z) (k : nat) :
  let flen := le_combine (firstn 4 (skipn (Z.to_nat (q + 12)) m)) in
  0 <= q < n -> n < q + (sizeof_inotify_event + flen) ->
  exists t r,
    segment_loop (S (S k)) m n q = (t, r) /\
    ((r = Ret (q + (sizeof_inotify_event + flen)) /\
      map slice_of (dispatches t) = [(q, sizeof_inotify_event + flen)] /\
      In (MemRead (q + 12) 4) t /\
      q + sizeof_inotify_event <= Z.of_nat (length m) /\
      has_nul (skipn (Z.to_nat (q + sizeof_inotify_event)) m) = true) \/
     (r = Stop Fault /\
      (dispatches t = [] \/
       map slice_of (dispatches t) = [(q, sizeof_inotify_event + flen)]) /\
      ~ (q + sizeof_inotify_event <= Z.of_nat (length m) /\
         has_nul (skipn (Z.to_nat (q + sizeof_inotify_event)) m) = true))).
Proof.
  intros flen Hq Hshort. cbn [segment_loop].
  destruct (Z.ltb_spec q n) as [_|Hge]; [|lia].
  assert (Hok : forall td,
            dump_inotify_event m q = (td, Stop Fault) ->
            ~ (q + sizeof_inotify_event <= Z.of_nat (length m) /\
               has_nul (skipn (Z.to_nat (q + sizeof_inotify_event)) m) = true)).
  { intros td Ed [Hroom Hnul].
    destruct (dump_ok m q (proj1 Hq) Hroom Hnul) as (t' & r' & nm' & Ed' & _).
    congruence. }
  destruct (dump_cases m q)
    as (td & [(Ed & Ho) | [(r & Ed & Ho & El) | (r & nm & Ed & Ho & El & Hs)]]);
    rewrite Ed.
  - rewrite bind_Stop. exists td, (Stop Fault). split; [reflexivity|].
    right. split; [reflexivity|]. split; [|exact (Hok td Ed)]. left.
    rewrite <- dispatches_observable, Ho. reflexivity.
  - rewrite bind_Stop. exists td, (Stop Fault). split; [reflexivity|].
    right. split; [reflexivity|]. split; [|exact (Hok td Ed)]. right.
    destruct (load32_ret _ _ _ _ El) as (_ & _ & Hv). fold flen in Hv.
    rewrite <- dispatches_observable, Ho. cbn [dispatches flat_map app map].
    unfold slice_of. cbn [fst snd]. rewrite Hv. reflexivity.
  - destruct (load32_ret _ _ _ _ El) as (_ & Hroom & Hv). fold flen in Hv.
    destruct (load32_cases m (q + 12)) as [Ef | (v & Ev & Hvr)];
      [rewrite Ef in El; discriminate|].
    assert (v = flen) by congruence. subst v.
    rewrite bind_Ret, Ev, bind_Ret, size_t_advance by exact Hvr.
    destruct (Z.ltb_spec (q + (sizeof_inotify_event + flen)) n) as [Hlt|_]; [lia|].
    cbn [ret fst snd]. rewrite app_nil_r.
    eexists _, _. split; [reflexivity|]. left.
    split; [reflexivity|]. split; [|split; [|split]].
    + rewrite dispatches_app, <- dispatches_observable, Ho.
      cbn [dispatches flat_map app map]. unfold slice_of. cbn [fst snd].
      rewrite Hv. reflexivity.
    + apply in_or_app. right. left. reflexivity.
    + unfold sizeof_inotify_event. lia.
    + destruct (c_str m (q + sizeof_inotify_event)) as [ts rs] eqn:Ec.
      cbn [snd] in Hs. subst rs. exact (proj2 (c_str_ret _ _ _ _ Ec)).
Qed.

(** C3, counterexample.  33 bytes read: one whole 32-byte record and one
    further byte.  The loop dispatches a second record at offset 32, reads
    its header from bytes 32..47, and leaves with the offset at 48. *)
Lemma trailing_fragment_not_skipped :
  let m := Sample.after_read (encode Sample.ev_create ++ [Byte.x07]) in
  (exists t,
     segment_loop (segment_fuel 33) m 33 0 = (t, Ret 48) /\
     map fst (dispatches t) = [0; 32] /\
     In (MemRead 44 4) t) /\
  ~ (exists t p,
       segment_loop (segment_fuel 33) m 33 0 = (t, Ret p) /\
       length (dispatches t) = 1%nat /\
       Forall (fun rd => fst rd + Z.of_nat (snd rd) <= 33) (mem_reads t) /\
       p <= 33).
Proof.
  split.
  - eexists. split; [vm_compute; reflexivity|].
    split; [reflexivity|]. cbn. tauto.
  - intros (t & p & E & _ & _ & Hp). vm_compute in E.
    injection E as _ <-. lia.
Qed.

(** C3, amended.  The bytes read, at most the 272 of the buffer, are whole
    records followed by a short trailing fragment (fewer bytes than the
    header size plus the length field read at the fragment's offset, which
    includes fewer than one header).  The record loop, whose only test is
    that the offset is below the buffer end, does not stop in front of the
    fragment.  When the 16 bytes at the fragment's offset and a NUL behind
    them lie inside the allocation, and only then, it treats the fragment
    as one more record: after the whole records it reads a header at the
    fragment's offset, dispatches it, moves the offset on by the header
    size plus that length field to a position past the buffer end, and
    only then stops.  Otherwise a read leaves the allocation, after the
    whole records have been dispatched and, when the whole header at the
    fragment's offset could be read, the fragment as well. *)
Theorem trailing_fragment_dispatched :
  forall (es : list raw_event) (frag stale : list byte) (fuel : nat),
    let m := encode_all es ++ frag ++ stale in
    let q := Z.of_nat (length (encode_all es)) in
    let bytesRead := q + Z.of_nat (length frag) in
    let flen := le_combine (firstn 4 (skipn (Z.to_nat (q + 12)) m)) in
    Forall (fun e => valid_event e = true) es ->
    bytesRead <= minBufferSize ->
    frag <> [] ->
    Z.of_nat (length frag) < sizeof_inotify_event + flen ->
    (length es + 1 < fuel)%nat ->
    exists t r,
      segment_loop fuel m bytesRead 0 = (t, r) /\
      ((r = Ret (q + (sizeof_inotify_event + flen)) /\
        bytesRead < q + (sizeof_inotify_event + flen) /\
        map slice_of (dispatches t) =
          boundaries 0 es ++ [(q, sizeof_inotify_event + flen)] /\
        In (MemRead (q + 12) 4) t) \/
       (r = Stop Fault /\
        (exists rd, In rd (mem_reads t) /\ outside m rd = true) /\
        (map slice_of (dispatches t) = boundaries 0 es \/
         map slice_of (dispatches t) =
           boundaries 0 es ++ [(q, sizeof_inotify_event + flen)]))) /\
      (r = Ret (q + (sizeof_inotify_event + flen)) <->
       q + sizeof_inotify_event <= Z.of_nat (length m) /\
       has_nul (skipn (Z.to_nat (q + sizeof_inotify_event)) m) = true).
Proof.
  intros es frag stale fuel m q n flen Hv Hfit Hfrag Hshort Hfuel.
  assert (Hlen : 0 < Z.of_nat (length frag))
    by (destruct frag; [congruence | cbn [length]; lia]).
  assert (Hq : 0 <= q < n) by (subst n q; lia).
  destruct (segment_loop_through es (frag ++ stale) n (fuel - length es) Hv)
    as (t1 & Hsl & Hrun); [fold q; lia | fold q; lia |].
  fold m q in Hrun.
  replace (length es + (fuel - length es))%nat with fuel in Hrun by lia.
  destruct Hrun as [Econt | [Efault Hnn]].
  - destruct (fuel - length es)%nat as [|[|k]] eqn:Ek; [lia|lia|].
    destruct (segment_loop_fragment m n q k Hq) as (tf & rf & Ef & Hcase);
      [fold flen; subst n; lia|].
    fold flen in Hcase. rewrite Ef in Econt. cbn [fst snd] in Econt.
    exists (t1 ++ tf), rf. split; [exact Econt|].
    destruct Hcase as [(-> & Hd & Hin & Hroom & Hnul) | (-> & Hd & Hno)].
    + split.
      * left. split; [reflexivity|]. split; [subst n; lia|].
        split; [rewrite dispatches_app, map_app, Hsl, Hd; reflexivity|].
        apply in_or_app. right. exact Hin.
      * split; [intros _; split; assumption | reflexivity].
    + split.
      * right. split; [reflexivity|].
        split; [exact (segment_loop_fault _ _ _ _ _ Econt)|].
        rewrite dispatches_app, map_app, Hsl.
        destruct Hd as [-> | ->]; [left; apply app_nil_r | right; reflexivity].
      * split; [discriminate | intros H; contradiction].
  - exists t1, (Stop Fault). split; [exact Efault|]. split.
    + right. split; [reflexivity|].
      split; [exact (segment_loop_fault _ _ _ _ _ Efault)|]. left. exact Hsl.
    + split; [discriminate|]. intros [_ Hnul]. exfalso.
      subst m q. rewrite skipn_behind in Hnul by (unfold sizeof_inotify_event; lia).
      apply has_nul_skipn in Hnul. congruence.
Qed.

Lemma trailing_fragment_dispatched_witness :
  let es := [Sample.ev_create] in
  let frag := [Byte.x07] in
  let stale := repeat Byte.x00 239 in
  let m := encode_all es ++ frag ++ stale in
  let q := Z.of_nat (length (encode_all es)) in
  let bytesRead := q + Z.of_nat (length frag) in
  let flen := le_combine (firstn 4 (skipn (Z.to_nat (q + 12)) m)) in
  exists t r,
    segment_loop 3 m bytesRead 0 = (t, r) /\
    ((r = Ret (q + (sizeof_inotify_event + flen)) /\
      bytesRead < q + (sizeof_inotify_event + flen) /\
      map slice_of (dispatches t) =
        boundaries 0 es ++ [(q, sizeof_inotify_event + flen)] /\
      In (MemRead (q + 12) 4) t) \/
     (r = Stop Fault /\
      (exists rd, In rd (mem_reads t) /\ outside m rd = true) /\
      (map slice_of (dispatches t) = boundaries 0 es \/
       map slice_of (dispatches t) =
         boundaries 0 es ++ [(q, sizeof_inotify_event + flen)]))) /\
    (r = Ret (q + (sizeof_inotify_event + flen)) <->
     q + sizeof_inotify_event <= Z.of_nat (length m) /\
     has_nul (skipn (Z.to_nat (q + sizeof_inotify_event)) m) = true).
Proof.
  intros es frag stale m q bytesRead flen.
  apply (trailing_fragment_dispatched es frag stale 3).
  - repeat constructor.
  - vm_compute. discriminate.
  - discriminate.
  - vm_compute. reflexivity.
  - simpl; lia.
Defined.

(** ** The table [codes] *)

Lemma stdmap_insert_keys (k : Z) (v : string) (m : StdMap.t) (x : Z) :
  In x (StdMap.keys (StdMap.insert k v m)) -> x = k \/ In x (StdMap.keys m).
Proof.
  induction m as [|[k' v'] m IH]; cbn [StdMap.insert].
  - cbn. intuition congruence.
  - destruct (k <? k'); [cbn; intuition congruence|].
    destruct (k =? k'); [tauto|].
    cbn. intros [H|H]; [tauto|]. destruct (IH H); tauto.
Qed.

(** Insertion keeps the keys strictly ascending. *)
Lemma stdmap_insert_sorted (k : Z) (v : string) (m : StdMap.t) :
  StronglySorted Z.lt (StdMap.keys m) ->
  StronglySorted Z.lt (StdMap.keys (StdMap.insert k v m)).
Proof.
  induction m as [|[k' v'] m IH]; intros H; cbn [StdMap.insert].
  - repeat constructor.
  - inversion H as [|? ? Hs Hf]; subst.
    destruct (Z.ltb_spec k k') as [Hlt|Hge].
    + cbn. constructor; [exact H|].
      constructor; [exact Hlt|].
      eapply Forall_impl; [|exact Hf]. cbn. intros; lia.
    + destruct (Z.eqb_spec k k') as [Heq|Hne]; [exact H|].
      cbn. constructor; [exact (IH Hs)|].
      apply Forall_forall. intros x Hx.
      destruct (stdmap_insert_keys k v m x Hx) as [->|Hin]; [lia|].
      rewrite Forall_forall in Hf. exact (Hf x Hin).
Qed.

(** Inserting a new key adds exactly that pair. *)
Lemma stdmap_insert_perm (k : Z) (v : string) (m : StdMap.t) :
  ~ In k (StdMap.keys m) -> Permutation (StdMap.insert k v m) ((k, v) :: m).
Proof.
  induction m as [|[k' v'] m IH]; intros H; cbn [StdMap.insert].
  - reflexivity.
  - destruct (k <? k'); [reflexivity|].
    destruct (Z.eqb_spec k k') as [Heq|Hne].
    + exfalso. apply H. left. symmetry. exact Heq.
    + eapply perm_trans; [|apply perm_swap].
      apply perm_skip, IH. intros Hin. apply H. right. exact Hin.
Qed.

Lemma stdmap_of_list_from (l : list (Z * string)) :
  forall acc : StdMap.t,
    StronglySorted Z.lt (StdMap.keys acc) ->
    NoDup (map fst l) ->
    (forall k, In k (map fst l) -> ~ In k (StdMap.keys acc)) ->
    let m := fold_left (fun m p => StdMap.insert (fst p) (snd p) m) l acc in
    StronglySorted Z.lt (StdMap.keys m) /\ Permutation m (acc ++ l).
Proof.
  induction l as [|[k v] l IH]; intros acc Hs Hnd Hfresh; cbn [fold_left fst snd].
  - split; [exact Hs|]. rewrite app_nil_r. reflexivity.
  - cbn [map fst] in Hnd. inversion Hnd as [|? ? Hk Hnd']; subst.
    assert (Hka : ~ In k (StdMap.keys acc)) by (apply Hfresh; left; reflexivity).
    destruct (IH (StdMap.insert k v acc)) as [Hs' Hp].
    + apply stdmap_insert_sorted; exact Hs.
    + exact Hnd'.
    + intros x Hx Hin.
      destruct (stdmap_insert_keys k v acc x Hin) as [->|Hin'].
      * exact (Hk Hx).
      * exact (Hfresh x (or_intror Hx) Hin').
    + split; [exact Hs'|].
      eapply perm_trans; [exact Hp|].
      eapply perm_trans;
        [apply Permutation_app_tail, (stdmap_insert_perm k v acc Hka)|].
      apply (Permutation_middle acc l (k, v)).
Qed.

Lemma codes_init_keys_distinct : NoDup (map fst codes_init).
Proof.
  repeat (constructor; [cbv; intuition discriminate|]).
  constructor.
Qed.

(** [codes] holds the declared pairs, ordered by ascending flag value. *)
Lemma codes_sorted_perm :
  StronglySorted Z.lt (StdMap.keys codes) /\ Permutation codes codes_init.
Proof.
  destruct (stdmap_of_list_from codes_init []) as [Hs Hp].
  - constructor.
  - exact codes_init_keys_distinct.
  - intros k _ [].
  - split; [exact Hs | exact Hp].
Qed.

Lemma filter_permutation {A : Type} (f : A -> bool) (l l' : list A) :
  Permutation l l' -> Permutation (filter f l) (filter f l').
Proof.
  induction 1 as [|x l l' _ IH|x y l|l l' l'' _ IH1 _ IH2]; cbn [filter].
  - constructor.
  - destruct (f x); [constructor|]; exact IH.
  - destruct (f x), (f y); try reflexivity. apply perm_swap.
  - etransitivity; eassumption.
Qed.

Lemma filter_keys_sorted (f : Z * string -> bool) (m : list (Z * string)) :
  StronglySorted Z.lt (map fst m) -> StronglySorted Z.lt (map fst (filter f m)).
Proof.
  induction m as [|p m IH]; intros H; [constructor|].
  cbn [map] in H. inversion H as [|? ? Hs Hf]; subst. cbn [filter].
  destruct (f p); [|exact (IH Hs)].
  cbn [map]. constructor; [exact (IH Hs)|].
  rewrite Forall_forall in *. intros x Hx. apply Hf.
  apply in_map_iff in Hx. destruct Hx as (y & <- & Hy).
  apply filter_In in Hy. apply in_map. tauto.
Qed.

(** C8, counterexample.  For a mask with IN_ATTRIB and IN_MODIFY the names
    come out as IN_MODIFY, IN_ATTRIB; the table declares IN_ATTRIB before
    IN_MODIFY. *)
Lemma names_not_in_declaration_order :
  mask_names codes (Z.lor IN_ATTRIB IN_MODIFY) =
    ["IN_MODIFY"%string; "IN_ATTRIB"%string] /\
  mask_names codes_init (Z.lor IN_ATTRIB IN_MODIFY) =
    ["IN_ATTRIB"%string; "IN_MODIFY"%string] /\
  mask_names codes (Z.lor IN_ATTRIB IN_MODIFY) <>
    mask_names codes_init (Z.lor IN_ATTRIB IN_MODIFY).
Proof. repeat split; try reflexivity. vm_compute. discriminate. Qed.

(** C8, amended.  For every event that [dump_inotify_event] prints, the
    names under "Event mask includes:" are those of the declared pairs
    whose flag is in the event's mask, in ascending order of the flag
    value: the key order of the [std::map], which is fixed but is not the
    order of declaration. *)
Theorem names_in_ascending_flag_order :
  forall (m : list byte) (p : Z) (t : list event),
    dump_inotify_event m p = (t, Ret tt) ->
    exists (r : report) (nm : list byte) (sel : list (Z * string)),
      observable t = [Dispatch p r; CoutName nm; CoutIncludes (map snd sel)] /\
      StronglySorted Z.lt (map fst sel) /\
      Permutation sel (filter (mask_has (r_mask r)) codes_init).
Proof.
  intros m p t E.
  destruct (dump_ret m p t tt E) as (r & nm & Ho & _).
  destruct codes_sorted_perm as [Hs Hp].
  exists r, nm, (filter (mask_has (r_mask r)) codes).
  split; [exact Ho|]. split.
  - apply filter_keys_sorted. exact Hs.
  - apply filter_permutation. exact Hp.
Qed.

Lemma names_in_ascending_flag_order_witness :
  exists (r : report) (nm : list byte) (sel : list (Z * string)),
    observable
      (fst (dump_inotify_event
              (Sample.after_read (encode Sample.ev_attrib_modify)) 0)) =
      [Dispatch 0 r; CoutName nm; CoutIncludes (map snd sel)] /\
    StronglySorted Z.lt (map fst sel) /\
    Permutation sel (filter (mask_has (r_mask r)) codes_init).
Proof.
  apply (names_in_ascending_flag_order
           (Sample.after_read (encode Sample.ev_attrib_modify)) 0).
  vm_compute. reflexivity.
Defined.

(** ** The run loop and the exit code *)

(** C2, counterexample.  A read that returns 0 takes the [break] of the
    short-read test: the iteration does not go back to the loop
    condition, and the second read that the environment offers is never
    made. *)
Lemma zero_length_read_breaks :
  let s := enter (Sample.world_of []) in
  let e := mkStep (ReadOk []) false in
  ~ (exists t s', loop_body s e = (t, Ret (Continue s'))) /\
  calls SYS_read
    (fst (main (Sample.world_of [e; mkStep (ReadOk (encode Sample.ev_open)) false])))
    = 1%nat.
Proof.
  split; [|vm_compute; reflexivity].
  intros (t & s' & E). vm_compute in E. discriminate.
Qed.

(** C2, amended.  In every iteration in which the read succeeds with
    [bytesRead == 0], no event is dispatched and the loop is left by the
    [break] of the short-read test: no further read is made whatever the
    environment offers, and the cleanup calls follow, once each. *)
Theorem zero_length_read_leaves_loop :
  forall (s : state) (sig : bool) (env : list env_step),
    gblExitRequested s = false ->
    exists s',
      loop_body s (mkStep (ReadOk []) sig) = ([Sys SYS_read], Ret (Break s')) /\
      run_loop (mkStep (ReadOk []) sig :: env) s = ([Sys SYS_read], Ret s') /\
      bytesRead s' = 0 /\
      dispatches (fst (run_loop (mkStep (ReadOk []) sig :: env) s)) = [] /\
      calls SYS_read (fst (run_loop (mkStep (ReadOk []) sig :: env) s)) = 1%nat /\
      calls SYS_inotify_rm_watch (fst (epilogue s')) = 1%nat /\
      calls SYS_close (fst (epilogue s')) = 1%nat.
Proof.
  intros s sig env Hflag.
  exists (deliver (mkStep (ReadOk []) sig) (sys_read (ReadOk []) s)).
  assert (Eb : loop_body s (mkStep (ReadOk []) sig) =
               ([Sys SYS_read],
                Ret (Break (deliver (mkStep (ReadOk []) sig) (sys_read (ReadOk []) s)))))
    by (apply loop_body_short_read; reflexivity).
  assert (Er : run_loop (mkStep (ReadOk []) sig :: env) s =
               ([Sys SYS_read],
                Ret (deliver (mkStep (ReadOk []) sig) (sys_read (ReadOk []) s)))).
  { cbn [run_loop]. rewrite Hflag, Eb, bind_Ret. reflexivity. }
  rewrite Er. split; [exact Eb|]. split; [reflexivity|].
  split; [destruct sig; reflexivity|].
  split; [reflexivity|]. split; [reflexivity|].
  unfold epilogue.
  destruct (negb (errno _ =? EINTR)); [destruct (bytesRead _ <? 0);
    [|destruct (negb (size_t _ =? sizeof_inotify_event))]|];
    split; reflexivity.
Qed.

Lemma zero_length_read_leaves_loop_witness :
  exists s',
    loop_body (enter (Sample.world_of [])) (mkStep (ReadOk []) false) =
      ([Sys SYS_read], Ret (Break s')) /\
    run_loop [mkStep (ReadOk []) false; mkStep (ReadOk (encode Sample.ev_open)) false]
      (enter (Sample.world_of [])) = ([Sys SYS_read], Ret s') /\
    bytesRead s' = 0 /\
    dispatches (fst (run_loop
      [mkStep (ReadOk []) false; mkStep (ReadOk (encode Sample.ev_open)) false]
      (enter (Sample.world_of [])))) = [] /\
    calls SYS_read (fst (run_loop
      [mkStep (ReadOk []) false; mkStep (ReadOk (encode Sample.ev_open)) false]
      (enter (Sample.world_of [])))) = 1%nat /\
    calls SYS_inotify_rm_watch (fst (epilogue s')) = 1%nat /\
    calls SYS_close (fst (epilogue s')) = 1%nat.
Proof.
  apply (zero_length_read_leaves_loop (enter (Sample.world_of [])) false
           [mkStep (ReadOk (encode Sample.ev_open)) false]).
  reflexivity.
Defined.

(** C4, the failing run.  A read is interrupted (EINTR, no SIGINT: the
    process was stopped and continued), the next read returns 4 bytes.
    The loop breaks, but [errno] still holds EINTR, so the diagnostics
    of lines 143-156 are skipped: nothing is written to [cerr] and the
    exit code is 0.  Without the interrupted read the same short read
    gives the diagnostic and exit code 1. *)
Theorem short_read_after_eintr_exits_0 :
  let short := mkStep (ReadOk [Byte.x01; Byte.x00; Byte.x00; Byte.x00]) false in
  main (Sample.world_of [mkStep (ReadErr EINTR) false; short]) =
    ([Sys SYS_inotify_init; Sys (SYS_inotify_add_watch IN_ALL);
      Sys SYS_read; Sys SYS_read;
      Cout "Ending program..."%string;
      Sys SYS_inotify_rm_watch; Sys SYS_close], Ret 0) /\
  main (Sample.world_of [short]) =
    ([Sys SYS_inotify_init; Sys (SYS_inotify_add_watch IN_ALL);
      Sys SYS_read;
      Cerr "Error reading inotify file id. Unexpected number of bytes"%string;
      Cout "Ending program..."%string;
      Sys SYS_inotify_rm_watch; Sys SYS_close], Ret 1).
Proof. split; vm_compute; reflexivity. Qed.

(** C6, the failing run.  One read delivers two whole records (48 bytes);
    SIGINT arrives while they are printed, so the flag is found set at
    the top of the loop.  [errno] is not EINTR and [bytesRead] is not the
    size of one header, so line 151 reports an error and the exit code
    is 1. *)
Theorem sigint_after_read_exits_1 :
  let w := Sample.world_of
             [mkStep (ReadOk (encode_all [Sample.ev_create; Sample.ev_close])) true] in
  snd (main w) = Ret 1 /\
  map header_of (dispatches (fst (main w))) =
    [header Sample.ev_create; header Sample.ev_close] /\
  filter is_cerr (fst (main w)) =
    [Cerr "Error reading inotify file id. Unexpected number of bytes"%string] /\
  calls SYS_read (fst (main w)) = 1%nat.
Proof. repeat split; vm_compute; reflexivity. Qed.

(** C9, the failing run.  One read delivers two records of a watched
    file, both with [len == 0].  Printing the first one streams [name] as
    a C string: it reads the bytes at offsets 16 and 17, which are the
    [wd] field of the second record, and prints the byte 0x01 as the
    name. *)
Theorem name_read_when_len_is_zero :
  let m := Sample.after_read (encode_all [Sample.ev_open; Sample.ev_close]) in
  dump_inotify_event m 0 =
    ([MemRead 0 4; MemRead 4 4; MemRead 8 4; MemRead 12 4;
      Dispatch 0 (mkReport 1 IN_OPEN 0 0);
      MemRead 16 1; MemRead 17 1;
      CoutName [Byte.x01];
      CoutIncludes ["IN_OPEN"%string]],
     Ret tt).
Proof. vm_compute. reflexivity. Qed.

(** Seventeen records without a name fill the 272-byte buffer; all are
    dispatched, and printing the name of the last one reads at offset
    272, outside the allocation. *)
Lemma full_buffer_scan_faults :
  let data := encode_all (repeat Sample.ev_open 17) in
  let run := segment_loop (segment_fuel minBufferSize) (Sample.after_read data)
               minBufferSize 0 in
  Z.of_nat (length data) = minBufferSize /\
  snd run = Stop Fault /\
  length (dispatches (fst run)) = 17%nat /\
  last (mem_reads (fst run)) (0, 0%nat) = (272, 1%nat).
Proof. repeat split; vm_compute; reflexivity. Qed.

Lemma main_enters_loop (w : world) :
  argc w = 2 -> 0 <= inotifyFd w -> 0 <= watchDescriptor w ->
  main w =
  ([Sys SYS_inotify_init; Sys (SYS_inotify_add_watch IN_ALL)] ++
     fst (s <- run_loop (reads w) (enter w) ;; epilogue s),
   snd (s <- run_loop (reads w) (enter w) ;; epilogue s)).
Proof.
  intros Ha Hi Hw. unfold main. rewrite Ha. cbn [Z.eqb Pos.eqb negb].
  unfold emit. rewrite bind_Ret.
  destruct (Z.ltb_spec (inotifyFd w) 0); [lia|].
  rewrite bind_Ret.
  destruct (Z.ltb_spec (watchDescriptor w) 0); [lia|].
  reflexivity.
Qed.

(** The read fails with EINTR and SIGINT is delivered during it: the loop
    is left at its condition, with [errno] still EINTR. *)
Lemma run_loop_interrupted_by_sigint (s : state) (rest : list env_step) :
  gblExitRequested s = false ->
  run_loop (mkStep (ReadErr EINTR) true :: rest) s =
  ([Sys SYS_read], Ret (mkState (mem s) (-1) EINTR true)).
Proof.
  intros Hflag. cbn [run_loop]. rewrite Hflag, loop_body_read_error, bind_Ret.
  cbn [Z.eqb EINTR Pos.eqb]. rewrite run_loop_flag by reflexivity. reflexivity.
Qed.

(** C5.  SIGINT arrives during a read, which fails with EINTR and leaves
    the flag set.  Whatever iterations the loop ran through before, it
    stops there: the exit code is 0, and [inotify_rm_watch] and [close]
    are each called exactly once in the whole run. *)
Theorem interrupted_with_flag_stops :
  forall (w : world) (pre rest : list env_step) (t : list event) (s : state),
    argc w = 2 -> 0 <= inotifyFd w -> 0 <= watchDescriptor w ->
    reads w = pre ++ mkStep (ReadErr EINTR) true :: rest ->
    run_prefix pre (enter w) = Some (t, s) ->
    gblExitRequested s = false ->
    main w =
      ([Sys SYS_inotify_init; Sys (SYS_inotify_add_watch IN_ALL)] ++ t ++
       [Sys SYS_read; Cout "Ending program..."%string;
        Sys SYS_inotify_rm_watch; Sys SYS_close], Ret 0) /\
    calls SYS_inotify_rm_watch (fst (main w)) = 1%nat /\
    calls SYS_close (fst (main w)) = 1%nat.
Proof.
  intros w pre rest t s Ha Hi Hw Hr Hp Hflag.
  assert (E : main w =
    ([Sys SYS_inotify_init; Sys (SYS_inotify_add_watch IN_ALL)] ++ t ++
     [Sys SYS_read; Cout "Ending program..."%string;
      Sys SYS_inotify_rm_watch; Sys SYS_close], Ret 0)).
  { rewrite (main_enters_loop w Ha Hi Hw), Hr.
    rewrite (run_loop_app pre _ _ _ _ Hp).
    rewrite (run_loop_interrupted_by_sigint s rest Hflag).
    cbn [fst snd]. rewrite bind_Ret. cbn [fst snd].
    rewrite <- app_assoc. reflexivity. }
  rewrite E. cbn [fst]. split; [reflexivity|].
  rewrite !calls_app.
  rewrite (run_prefix_calls SYS_inotify_rm_watch pre _ _ _ ltac:(discriminate) Hp).
  rewrite (run_prefix_calls SYS_close pre _ _ _ ltac:(discriminate) Hp).
  split; reflexivity.
Qed.

Lemma interrupted_with_flag_stops_witness :
  let pre := [mkStep (ReadErr EINTR) false;
              mkStep (ReadOk (encode Sample.ev_create)) false] in
  let w := Sample.world_of (pre ++ mkStep (ReadErr EINTR) true :: []) in
  main w =
    ([Sys SYS_inotify_init; Sys (SYS_inotify_add_watch IN_ALL)] ++
     fst (run_loop pre (enter w)) ++
     [Sys SYS_read; Cout "Ending program..."%string;
      Sys SYS_inotify_rm_watch; Sys SYS_close], Ret 0) /\
  calls SYS_inotify_rm_watch (fst (main w)) = 1%nat /\
  calls SYS_close (fst (main w)) = 1%nat.
Proof.
  intros pre w.
  apply (interrupted_with_flag_stops w pre [] (fst (run_loop pre (enter w)))
           (mkState (Sample.after_read (encode Sample.ev_create)) 32 EINTR false)).
  - reflexivity.
  - vm_compute; discriminate.
  - vm_compute; discriminate.
  - reflexivity.
  - vm_compute; reflexivity.
  - reflexivity.
Defined.


(** ** Two remarks on the model *)

(** The fuel of the record loop is never used up: no run of [main] ends
    for lack of it. *)
Lemma loop_body_fuel (s : state) (e : env_step) :
  snd (loop_body s e) <> Stop OutOfFuel.
Proof.
  unfold loop_body, emit. rewrite bind_Ret. cbn [snd].
  destruct (bytesRead _ <? 0).
  - destruct (errno _ =? EINTR); discriminate.
  - destruct (size_t _ <? sizeof_inotify_event); [discriminate|].
    rewrite bind_Ret. cbn [snd].
    set (s' := deliver e (sys_read (outcome e) s)).
    destruct (segment_loop_progress (segment_fuel (bytesRead s')) (mem s')
                (bytesRead s') 0) as (t & r & E & Hr & _).
    { unfold segment_fuel. lia. }
    rewrite E. destruct r as [a|w]; [rewrite bind_Ret; discriminate|].
    rewrite bind_Stop. cbn [snd]. intros H. apply Hr.
    injection H as ->. reflexivity.
Qed.

Lemma run_loop_fuel (env : list env_step) :
  forall s : state, snd (run_loop env s) <> Stop OutOfFuel.
Proof.
  induction env as [|e env IH]; intros s; cbn [run_loop];
    destruct (gblExitRequested s); try discriminate.
  pose proof (loop_body_fuel s e) as Hb.
  destruct (loop_body s e) as [t [[s'|s']|w]]; cbn [snd] in Hb.
  - rewrite bind_Ret. apply IH.
  - rewrite bind_Ret. discriminate.
  - rewrite bind_Stop. cbn [snd]. intros H. apply Hb.
    injection H as ->. reflexivity.
Qed.

Lemma main_fuel (w : world) : snd (main w) <> Stop OutOfFuel.
Proof.
  unfold main, emit.
  destruct (negb (argc w =? 2)); [discriminate|]. rewrite bind_Ret.
  destruct (inotifyFd w <? 0); [discriminate|]. rewrite bind_Ret.
  destruct (watchDescriptor w <? 0); [discriminate|]. cbn [snd].
  pose proof (run_loop_fuel (reads w) (enter w)) as Hr.
  destruct (run_loop (reads w) (enter w)) as [t [s|x]]; cbn [snd] in Hr.
  - rewrite bind_Ret. cbn [snd]. unfold epilogue, emit.
    destruct (negb (errno s =? EINTR));
      [destruct (bytesRead s <? 0);
         [|destruct (negb (size_t (bytesRead s) =? sizeof_inotify_event))]|];
      discriminate.
  - rewrite bind_Stop. cbn [snd]. intros H. apply Hr.
    injection H as ->. reflexivity.
Qed.

(** A name field as the kernel writes it, the name followed by at least
    one NUL, is printed up to the first NUL. *)
Lemma c_str_from_name (s : list byte) :
  forall (rest : list byte) (a : Z),
    has_nul s = false ->
    snd (c_str_from (s ++ Byte.x00 :: rest) a) = Ret s.
Proof.
  induction s as [|b s IH]; intros rest a H.
  - reflexivity.
  - cbn [has_nul existsb] in H. apply orb_false_iff in H. destruct H as [Hb Hs].
    cbn [app c_str_from]. unfold emit. rewrite bind_Ret, Hb.
    specialize (IH rest (a + 1) Hs).
    destruct (c_str_from (s ++ Byte.x00 :: rest) (a + 1)) as [t r].
    cbn [snd] in IH. subst r. rewrite bind_Ret. reflexivity.
Qed.

(** * Further properties of the code *)

(** ** [dump_inotify_event] on a record with a terminated name *)


(** The scan of a name without NUL that is followed by a NUL: it yields
    the name and reads the name and the terminator, nothing else. *)
Lemma c_str_from_reads (s : list byte) :
  forall (rest : list byte) (a : Z),
    has_nul s = false ->
    exists t,
      c_str_from (s ++ Byte.x00 :: rest) a = (t, Ret s) /\
      observable t = [] /\
      Forall (fun rd => a <= fst rd /\
                        fst rd + Z.of_nat (snd rd) <= a + Z.of_nat (length s) + 1)
             (mem_reads t).
Proof.
  induction s as [|b s IH]; intros rest a H.
  - exists [MemRead a 1]. repeat split. repeat constructor; cbn; lia.
  - cbn [has_nul existsb] in H. apply orb_false_iff in H. destruct H as [Hb Hs].
    destruct (IH rest (a + 1) Hs) as (t & Et & Ho & Hr).
    exists (MemRead a 1 :: t).
    cbn [app c_str_from]. unfold emit. rewrite bind_Ret, Hb, Et, bind_Ret.
    cbn [fst snd ret app]. rewrite app_nil_r.
    split; [reflexivity|]. split; [exact Ho|].
    cbn [mem_reads flat_map app]. constructor.
    + cbn [fst snd length]. lia.
    + eapply Forall_impl; [|exact Hr]. cbn [length]. intros rd Hrd. lia.
Qed.

(** A valid record whose name field holds a name without NUL followed by
    at least one NUL, as the kernel writes it: the call returns, prints
    the record's header fields, the name up to the first NUL and the
    names of the flags in its mask, and reads no byte outside the
    record. *)
Lemma dump_terminated (pre post : list byte) (e : raw_event)
      (s : list byte) (k : nat) :
  valid_event e = true ->
  name e = s ++ repeat Byte.x00 (S k) ->
  has_nul s = false ->
  let p := Z.of_nat (length pre) in
  exists t,
    dump_inotify_event (pre ++ encode e ++ post) p = (t, Ret tt) /\
    observable t = [Dispatch p (report_of e); CoutName s;
                    CoutIncludes (mask_names codes (mask e))] /\
    Forall (fun rd => p <= fst rd /\
                      fst rd + Z.of_nat (snd rd) <= p + Z.of_nat (length (encode e)))
           (mem_reads t).
Proof.
  intros Hv Hname Hs p.
  destruct (valid_event_spec e Hv) as (Hwd & Hmask & Hcookie & Hlen).
  destruct (header_at pre post e p eq_refl) as (E1 & E2 & E3 & E4 & E5).
  pose proof (length_encode e) as Le.
  assert (Ln : len e = Z.of_nat (length s) + Z.of_nat (S k))
    by (unfold len; rewrite Hname, length_app, repeat_length; lia).
  destruct (c_str_from_reads s (repeat Byte.x00 k ++ post)
              (p + sizeof_inotify_event) Hs) as (ts & Ets & Hots & Hrts).
  assert (E6 : c_str (pre ++ encode e ++ post) (p + sizeof_inotify_event) =
               (ts, Ret s)).
  { unfold c_str.
    destruct (Z.ltb_spec (p + sizeof_inotify_event) 0);
      [unfold sizeof_inotify_event in *; lia|].
    rewrite E5, Hname. cbn [repeat]. rewrite <- app_assoc. exact Ets. }
  unfold dump_inotify_event.
  rewrite E1, bind_Ret, E2, bind_Ret, E3, bind_Ret, E4, bind_Ret.
  rewrite int32_wrap by exact Hwd.
  rewrite !Z.mod_small by assumption. fold (report_of e).
  unfold emit. rewrite bind_Ret, E6, !bind_Ret. cbn [fst snd].
  eexists. split; [reflexivity|].
  split; [rewrite !observable_app, Hots; reflexivity|].
  rewrite !mem_reads_app. cbn [mem_reads flat_map app].
  unfold sizeof_inotify_event in *.
  repeat (constructor; [cbn [fst snd]; lia|]).
  rewrite app_nil_r.
  eapply Forall_impl; [|exact Hrts]. intros rd Hrd. cbv beta in Hrd. lia.
Qed.

(** X1.  Round trip of one record through [dump_inotify_event]: for a
    valid record whose name field is a name without NUL padded with at
    least one NUL, the call returns and prints exactly the record's
    handle, mask, cookie and length, then the name without the padding,
    then the names of the flags in the mask. *)
Theorem dump_prints_terminated_record :
  forall (pre post : list byte) (e : raw_event) (s : list byte) (k : nat),
    valid_event e = true ->
    name e = s ++ repeat Byte.x00 (S k) ->
    has_nul s = false ->
    exists t,
      dump_inotify_event (pre ++ encode e ++ post) (Z.of_nat (length pre)) =
        (t, Ret tt) /\
      observable t =
        [Dispatch (Z.of_nat (length pre)) (report_of e); CoutName s;
         CoutIncludes (mask_names codes (mask e))].
Proof.
  intros pre post e s k Hv Hn Hs.
  destruct (dump_terminated pre post e s k Hv Hn Hs) as (t & E & Ho & _).
  exists t. split; assumption.
Qed.

Lemma dump_prints_terminated_record_witness :
  exists t,
    dump_inotify_event (encode Sample.ev_open ++ encode Sample.ev_create ++ [])
      (Z.of_nat (length (encode Sample.ev_open))) = (t, Ret tt) /\
    observable t =
      [Dispatch (Z.of_nat (length (encode Sample.ev_open)))
         (report_of Sample.ev_create);
       CoutName [Byte.x73; Byte.x75; Byte.x62];
       CoutIncludes (mask_names codes (mask Sample.ev_create))].
Proof.
  apply (dump_prints_terminated_record (encode Sample.ev_open) []
           Sample.ev_create [Byte.x73; Byte.x75; Byte.x62] 12).
  - reflexivity.
  - reflexivity.
  - reflexivity.
Defined.

(** X2.  On such a record the call reads memory inside the record only:
    every read starts at or after the record's first byte and ends at or
    before its last, also when the record is the last thing in the
    allocation. *)
Theorem dump_reads_inside_terminated_record :
  forall (pre post : list byte) (e : raw_event) (s : list byte) (k : nat),
    valid_event e = true ->
    name e = s ++ repeat Byte.x00 (S k) ->
    has_nul s = false ->
    Forall (fun rd =>
              Z.of_nat (length pre) <= fst rd /\
              fst rd + Z.of_nat (snd rd) <=
                Z.of_nat (length pre) + Z.of_nat (length (encode e)))
           (mem_reads
              (fst (dump_inotify_event (pre ++ encode e ++ post)
                      (Z.of_nat (length pre))))).
Proof.
  intros pre post e s k Hv Hn Hs.
  destruct (dump_terminated pre post e s k Hv Hn Hs) as (t & E & _ & Hr).
  rewrite E. exact Hr.
Qed.

Lemma dump_reads_inside_terminated_record_witness :
  Forall (fun rd =>
            Z.of_nat (length (encode Sample.ev_open)) <= fst rd /\
            fst rd + Z.of_nat (snd rd) <=
              Z.of_nat (length (encode Sample.ev_open)) +
              Z.of_nat (length (encode Sample.ev_create)))
         (mem_reads
            (fst (dump_inotify_event
                    (encode Sample.ev_open ++ encode Sample.ev_create ++ [])
                    (Z.of_nat (length (encode Sample.ev_open)))))).
Proof.
  apply (dump_reads_inside_terminated_record (encode Sample.ev_open) []
           Sample.ev_create [Byte.x73; Byte.x75; Byte.x62] 12).
  - reflexivity.
  - reflexivity.
  - reflexivity.
Defined.

(** ** The flag names *)

Lemma codes_init_names_distinct : NoDup (map snd codes_init).
Proof.
  repeat (constructor; [cbv; intuition discriminate|]).
  constructor.
Qed.

Lemma snd_determines_fst {A B : Type} (l : list (A * B)) :
  NoDup (map snd l) ->
  forall (a a' : A) (b : B), In (a, b) l -> In (a', b) l -> a = a'.
Proof.
  induction l as [|[x y] l IH]; intros Hnd a a' b H H'; [destruct H|].
  cbn [map snd] in Hnd. inversion Hnd as [|? ? Hy Hnd']; subst.
  destruct H as [H|H], H' as [H'|H'].
  - congruence.
  - injection H as -> ->. exfalso. apply Hy.
    change b with (snd (a', b)). apply in_map. exact H'.
  - injection H' as -> ->. exfalso. apply Hy.
    change b with (snd (a, b)). apply in_map. exact H.
  - exact (IH Hnd' a a' b H H').
Qed.

(** A declared name is printed exactly when its flag meets the mask. *)
Lemma flag_named (mask k : Z) (nm : string) :
  In (k, nm) codes_init ->
  (In nm (mask_names codes mask) <-> Z.land mask k <> 0).
Proof.
  intros Hin. destruct codes_sorted_perm as [_ Hp].
  unfold mask_names. split.
  - intros H. apply in_map_iff in H. destruct H as ([k' nm'] & Hnm & Hf).
    cbn [snd] in Hnm. subst nm'. apply filter_In in Hf. destruct Hf as [Hc Hm].
    apply (Permutation_in _ Hp) in Hc.
    rewrite (snd_determines_fst codes_init codes_init_names_distinct k k' nm Hin Hc).
    unfold mask_has in Hm. cbn [fst] in Hm.
    apply negb_true_iff, Z.eqb_neq in Hm. exact Hm.
  - intros H. change nm with (snd (k, nm)). apply in_map.
    apply filter_In. split.
    + apply (Permutation_in _ (Permutation_sym Hp)). exact Hin.
    + unfold mask_has. cbn [fst]. apply negb_true_iff, Z.eqb_neq. exact H.
Qed.

(** X3.  Classification of a mask: for every (flag, name) pair of the
    table, the name is among the names printed for a mask exactly when
    the mask has a bit in common with the flag; so every flag that is
    set is reported, whatever else is set, and no other name is. *)
Theorem name_printed_iff_flag_set :
  forall (mask k : Z) (nm : string),
    In (k, nm) codes_init ->
    (In nm (mask_names codes mask) <-> Z.land mask k <> 0).
Proof. intros mask k nm H. apply flag_named. exact H. Qed.

Lemma name_printed_iff_flag_set_witness :
  In "IN_ISDIR"%string (mask_names codes (Z.lor IN_CREATE IN_ISDIR)) <->
  Z.land (Z.lor IN_CREATE IN_ISDIR) IN_ISDIR <> 0.
Proof.
  apply (name_printed_iff_flag_set (Z.lor IN_CREATE IN_ISDIR) IN_ISDIR
           "IN_ISDIR"%string).
  cbn. tauto.
Defined.

Lemma land_lor_list (mask : Z) (l : list Z) :
  Z.land mask (fold_right Z.lor 0 l) <> 0 ->
  exists k, In k l /\ Z.land mask k <> 0.
Proof.
  induction l as [|k l IH]; cbn [fold_right]; intros H.
  - rewrite Z.land_0_r in H. congruence.
  - rewrite Z.land_lor_distr_r in H.
    destruct (Z.eq_dec (Z.land mask k) 0) as [E|E].
    + rewrite E, Z.lor_0_l in H. destruct (IH H) as (k' & Hk & Hl).
      exists k'. split; [right; exact Hk | exact Hl].
    + exists k. split; [left; reflexivity | exact E].
Qed.

(** X4.  The mask passed to [inotify_add_watch] is the OR of the flags of
    the table, and every mask that has a bit of it in common gets at
    least one name printed: no event the watch asks for is reported
    without a name. *)
Theorem watched_mask_is_named :
  IN_ALL = fold_right Z.lor 0 (map fst codes_init) /\
  forall mask : Z,
    Z.land mask IN_ALL <> 0 ->
    exists (k : Z) (nm : string),
      In (k, nm) codes_init /\ Z.land mask k <> 0 /\
      In nm (mask_names codes mask).
Proof.
  split; [reflexivity|]. intros mask H.
  change IN_ALL with (fold_right Z.lor 0 (map fst codes_init)) in H.
  destruct (land_lor_list mask _ H) as (k & Hk & Hl).
  apply in_map_iff in Hk. destruct Hk as ([k' nm] & Hf & Hin).
  cbn [fst] in Hf. subst k'.
  exists k, nm. split; [exact Hin|]. split; [exact Hl|].
  apply (flag_named mask k nm Hin). exact Hl.
Qed.

Lemma watched_mask_is_named_witness :
  exists (k : Z) (nm : string),
    In (k, nm) codes_init /\ Z.land (Z.lor IN_CREATE IN_ISDIR) k <> 0 /\
    In nm (mask_names codes (Z.lor IN_CREATE IN_ISDIR)).
Proof.
  apply (proj2 watched_mask_is_named (Z.lor IN_CREATE IN_ISDIR)).
  vm_compute. discriminate.
Defined.

(** ** System calls of a run *)

Lemma calls_cons (c : syscall) (e : event) (t : list event) :
  calls c (e :: t) = ((if is_sys c e then 1 else 0) + calls c t)%nat.
Proof. unfold calls. cbn [filter]. destruct (is_sys c e); reflexivity. Qed.

Lemma loop_body_reads (s : state) (e : env_step) :
  calls SYS_read (fst (loop_body s e)) = 1%nat.
Proof.
  unfold loop_body, emit. rewrite bind_Ret. cbn [fst]. rewrite calls_app.
  change (calls SYS_read [Sys SYS_read]) with 1%nat.
  destruct (bytesRead _ <? 0).
  - destruct (errno _ =? EINTR); reflexivity.
  - destruct (size_t _ <? sizeof_inotify_event); [reflexivity|].
    rewrite bind_Ret. cbn [fst]. rewrite calls_app.
    pose proof (segment_loop_calls SYS_read
      (segment_fuel (bytesRead (deliver e (sys_read (outcome e) s))))
      (mem (deliver e (sys_read (outcome e) s)))
      (bytesRead (deliver e (sys_read (outcome e) s))) 0) as Hs.
    destruct (segment_loop _ _ _ _) as [ts [a|w]]; cbn [fst snd] in *.
    + rewrite bind_Ret. cbn [fst]. rewrite calls_app, Hs. reflexivity.
    + rewrite bind_Stop. cbn [fst]. rewrite Hs. reflexivity.
Qed.

(** However an iteration ends, the state it leaves is the one after the
    read and the signal. *)
Lemma loop_body_state (s : state) (e : env_step) (t : list event) (c : control) :
  loop_body s e = (t, Ret c) ->
  c = Continue (deliver e (sys_read (outcome e) s)) \/
  c = Break (deliver e (sys_read (outcome e) s)).
Proof.
  unfold loop_body, emit. rewrite bind_Ret.
  destruct (bytesRead _ <? 0).
  - destruct (errno _ =? EINTR); intros H; injection H as _ <-; tauto.
  - destruct (size_t _ <? sizeof_inotify_event);
      [intros H; injection H as _ <-; tauto|].
    rewrite bind_Ret.
    destruct (segment_loop _ _ _ _) as [ts [a|w]];
      [rewrite bind_Ret | rewrite bind_Stop]; cbn [fst snd]; intros H;
      [injection H as _ <-; tauto | discriminate].
Qed.

Lemma run_loop_calls (c : syscall) (env : list env_step) :
  forall s : state, c <> SYS_read -> calls c (fst (run_loop env s)) = 0%nat.
Proof.
  induction env as [|e env IH]; intros s Hc; cbn [run_loop];
    destruct (gblExitRequested s); try reflexivity.
  pose proof (loop_body_calls c s e Hc) as Hb.
  destruct (loop_body s e) as [t [[s'|s']|w]]; cbn [fst] in Hb.
  - rewrite bind_Ret. cbn [fst]. rewrite calls_app, Hb. apply IH. exact Hc.
  - rewrite bind_Ret. cbn [fst ret]. rewrite calls_app, Hb. reflexivity.
  - rewrite bind_Stop. exact Hb.
Qed.

Lemma run_loop_reads (env : list env_step) :
  forall s : state, (calls SYS_read (fst (run_loop env s)) <= length env)%nat.
Proof.
  induction env as [|e env IH]; intros s; cbn [run_loop];
    destruct (gblExitRequested s); cbn [fst ret halt calls filter length]; try lia.
  pose proof (loop_body_reads s e) as Hb.
  destruct (loop_body s e) as [t [[s'|s']|w]]; cbn [fst] in Hb.
  - rewrite bind_Ret. cbn [fst]. rewrite calls_app, Hb.
    specialize (IH s'). lia.
  - rewrite bind_Ret. cbn [fst ret]. rewrite calls_app, Hb. cbn. lia.
  - rewrite bind_Stop. cbn [fst]. lia.
Qed.

(** The epilogue: possibly a diagnostic, then the farewell line and the
    two cleanup calls, and an exit code of 0 or 1. *)
Lemma epilogue_shape (s : state) :
  exists (d : list event) (c : Z),
    epilogue s =
      (d ++ [Cout "Ending program..."%string;
             Sys SYS_inotify_rm_watch; Sys SYS_close], Ret c) /\
    (c = 0 \/ c = 1) /\
    (forall sc, calls sc d = 0%nat) /\
    dispatches d = [].
Proof.
  unfold epilogue, emit.
  destruct (negb (errno s =? EINTR));
    [destruct (bytesRead s <? 0);
       [|destruct (negb (size_t (bytesRead s) =? sizeof_inotify_event))]|].
  - exists [Cerr "Error reading inotify file id"%string; CerrErrno (errno s)], 1.
    repeat split; try tauto; try (intros sc; destruct sc; reflexivity).
  - exists [Cerr "Error reading inotify file id. Unexpected number of bytes"%string], 1.
    repeat split; try tauto; try (intros sc; destruct sc; reflexivity).
  - exists [], 0. repeat split; try tauto.
  - exists [], 0. repeat split; try tauto.
Qed.

(** X5.  When set-up fails (wrong argument count, [inotify_init] or
    [inotify_add_watch] failing) the program exits with code 1 after one
    line on [cerr]; it never reads and never removes a watch, and it
    closes the descriptor exactly when [inotify_init] had succeeded. *)
Theorem setup_failure_exits_1 :
  forall w : world,
    argc w <> 2 \/ inotifyFd w < 0 \/ watchDescriptor w < 0 ->
    snd (main w) = Ret 1 /\
    (exists msg, filter is_cerr (fst (main w)) = [Cerr msg]) /\
    calls SYS_read (fst (main w)) = 0%nat /\
    calls SYS_inotify_rm_watch (fst (main w)) = 0%nat /\
    calls SYS_close (fst (main w)) =
      (if (argc w =? 2) && (0 <=? inotifyFd w) then 1%nat else 0%nat).
Proof.
  intros w H. unfold main, emit.
  destruct (Z.eqb_spec (argc w) 2) as [Ha|Ha]; cbn [negb andb].
  2:{ repeat split. eexists; reflexivity. }
  rewrite bind_Ret.
  destruct (Z.ltb_spec (inotifyFd w) 0) as [Hi|Hi].
  { destruct (Z.leb_spec 0 (inotifyFd w)); [lia|].
    repeat split. eexists; reflexivity. }
  destruct (Z.leb_spec 0 (inotifyFd w)); [|lia].
  rewrite bind_Ret.
  destruct (Z.ltb_spec (watchDescriptor w) 0) as [Hw|Hw]; [|lia].
  repeat split. eexists; reflexivity.
Qed.

Lemma setup_failure_exits_1_witness :
  snd (main (mkWorld 2 Sample.path 3 (-1) 0 Sample.zeros 0 false [])) = Ret 1 /\
  (exists msg,
     filter is_cerr (fst (main (mkWorld 2 Sample.path 3 (-1) 0 Sample.zeros 0 false []))) =
       [Cerr msg]) /\
  calls SYS_read (fst (main (mkWorld 2 Sample.path 3 (-1) 0 Sample.zeros 0 false []))) = 0%nat /\
  calls SYS_inotify_rm_watch
    (fst (main (mkWorld 2 Sample.path 3 (-1) 0 Sample.zeros 0 false []))) = 0%nat /\
  calls SYS_close (fst (main (mkWorld 2 Sample.path 3 (-1) 0 Sample.zeros 0 false []))) =
    (if (argc (mkWorld 2 Sample.path 3 (-1) 0 Sample.zeros 0 false []) =? 2) &&
        (0 <=? inotifyFd (mkWorld 2 Sample.path 3 (-1) 0 Sample.zeros 0 false []))
     then 1%nat else 0%nat).
Proof.
  apply (setup_failure_exits_1 (mkWorld 2 Sample.path 3 (-1) 0 Sample.zeros 0 false [])).
  right. right. cbn. lia.
Defined.

Lemma calls_in (c : syscall) (t : list event) :
  In (Sys c) t -> calls c t <> 0%nat.
Proof.
  induction t as [|e t IH]; intros H; [destruct H|].
  rewrite calls_cons. destruct H as [-> | H].
  - destruct c; cbn; discriminate.
  - specialize (IH H). destruct (is_sys c e); lia.
Qed.

(** X6.  Every run that gets past set-up and returns has made each of
    [inotify_init], [inotify_add_watch], [inotify_rm_watch] and [close]
    exactly once: it starts with [inotify_init] and then
    [inotify_add_watch] with the mask IN_ALL, which is the only mask a
    watch is ever added with, and it ends with the farewell line followed
    by [inotify_rm_watch] and [close] in this order; in between it has
    read at most once per outcome the environment offered; it exits with
    code 0 or 1. *)
Theorem returning_run_cleans_up_once :
  forall (w : world) (t : list event) (c : Z),
    argc w = 2 -> 0 <= inotifyFd w -> 0 <= watchDescriptor w ->
    main w = (t, Ret c) ->
    (c = 0 \/ c = 1) /\
    (exists t',
       t = [Sys SYS_inotify_init; Sys (SYS_inotify_add_watch IN_ALL)] ++ t' ++
           [Cout "Ending program..."%string;
            Sys SYS_inotify_rm_watch; Sys SYS_close] /\
       forall sc, sc <> SYS_read -> calls sc t' = 0%nat) /\
    (forall mask, In (Sys (SYS_inotify_add_watch mask)) t -> mask = IN_ALL) /\
    calls SYS_inotify_init t = 1%nat /\
    calls (SYS_inotify_add_watch IN_ALL) t = 1%nat /\
    calls SYS_inotify_rm_watch t = 1%nat /\
    calls SYS_close t = 1%nat /\
    (calls SYS_read t <= length (reads w))%nat.
Proof.
  intros w t c Ha Hi Hw E.
  rewrite (main_enters_loop w Ha Hi Hw) in E.
  pose proof (run_loop_reads (reads w) (enter w)) as Hrd.
  pose proof (fun sc H => run_loop_calls sc (reads w) (enter w) H) as Hcl.
  destruct (run_loop (reads w) (enter w)) as [tl [s|x]]; [|discriminate].
  cbn [fst] in Hrd, Hcl.
  destruct (epilogue_shape s) as (d & c' & Ee & Hc & Hd & _).
  rewrite bind_Ret, Ee in E. cbn [fst snd] in E. injection E as <- <-.
  assert (Hmid : forall sc, sc <> SYS_read -> calls sc (tl ++ d) = 0%nat)
    by (intros sc Hsc; rewrite calls_app, Hd, (Hcl sc Hsc); reflexivity).
  split; [exact Hc|]. split; [|split].
  - exists (tl ++ d). split; [|exact Hmid].
    rewrite <- !app_assoc. reflexivity.
  - intros mask Hin.
    destruct Hin as [Hin | [Hin | Hin]]; [discriminate | congruence |].
    apply in_app_or in Hin. destruct Hin as [Hin | Hin].
    + exfalso.
      apply (calls_in (SYS_inotify_add_watch mask) tl Hin).
      apply Hcl. discriminate.
    + apply in_app_or in Hin. destruct Hin as [Hin | Hin].
      * exfalso. apply (calls_in (SYS_inotify_add_watch mask) d Hin). apply Hd.
      * destruct Hin as [Hin | [Hin | [Hin | []]]]; discriminate.
  - rewrite !calls_cons, !calls_app, !Hd.
    rewrite (Hcl SYS_inotify_init), (Hcl (SYS_inotify_add_watch IN_ALL)),
      (Hcl SYS_inotify_rm_watch), (Hcl SYS_close) by discriminate.
    repeat split; try reflexivity. cbn. lia.
Qed.

Lemma returning_run_cleans_up_once_witness :
  let w := Sample.world_of
             [mkStep (ReadOk (encode Sample.ev_create)) false;
              mkStep (ReadErr EINTR) true] in
  (0 = 0 \/ 0 = 1) /\
  (exists t',
     fst (main w) =
       [Sys SYS_inotify_init; Sys (SYS_inotify_add_watch IN_ALL)] ++ t' ++
       [Cout "Ending program..."%string;
        Sys SYS_inotify_rm_watch; Sys SYS_close] /\
     forall sc, sc <> SYS_read -> calls sc t' = 0%nat) /\
  (forall mask, In (Sys (SYS_inotify_add_watch mask)) (fst (main w)) ->
                mask = IN_ALL) /\
  calls SYS_inotify_init (fst (main w)) = 1%nat /\
  calls (SYS_inotify_add_watch IN_ALL) (fst (main w)) = 1%nat /\
  calls SYS_inotify_rm_watch (fst (main w)) = 1%nat /\
  calls SYS_close (fst (main w)) = 1%nat /\
  (calls SYS_read (fst (main w)) <= length (reads w))%nat.
Proof.
  intros w.
  apply (returning_run_cleans_up_once w (fst (main w)) 0).
  - reflexivity.
  - vm_compute; discriminate.
  - vm_compute; discriminate.
  - vm_compute; reflexivity.
Defined.

(** ** How the loop is left *)

(** X7.  A read that fails with an error other than EINTR ends the run,
    whatever iterations the loop ran through before and whether or not
    SIGINT arrives with it: no further read is made, both error lines are
    written with the [errno] of the failed read, the cleanup follows and
    the exit code is 1. *)
Theorem read_error_exits_1 :
  forall (w : world) (pre rest : list env_step) (t : list event) (s : state)
         (err : Z) (sig : bool),
    argc w = 2 -> 0 <= inotifyFd w -> 0 <= watchDescriptor w ->
    reads w = pre ++ mkStep (ReadErr err) sig :: rest ->
    run_prefix pre (enter w) = Some (t, s) ->
    gblExitRequested s = false ->
    err <> EINTR ->
    main w =
      ([Sys SYS_inotify_init; Sys (SYS_inotify_add_watch IN_ALL)] ++ t ++
       [Sys SYS_read;
        Cerr "Error reading inotify file id"%string; CerrErrno err;
        Cout "Ending program..."%string;
        Sys SYS_inotify_rm_watch; Sys SYS_close], Ret 1).
Proof.
  intros w pre rest t s err sig Ha Hi Hw Hr Hp Hflag Herr.
  rewrite (main_enters_loop w Ha Hi Hw), Hr.
  rewrite (run_loop_app pre _ _ _ _ Hp).
  cbn [run_loop]. rewrite Hflag, loop_body_read_error, bind_Ret.
  destruct (Z.eqb_spec err EINTR) as [Heq|_]; [contradiction|].
  cbn [fst snd ret]. rewrite bind_Ret. cbn [fst snd].
  unfold epilogue.
  assert (Es : errno (deliver (mkStep (ReadErr err) sig) (sys_read (ReadErr err) s))
               = err) by (destruct sig; reflexivity).
  assert (Bs : bytesRead (deliver (mkStep (ReadErr err) sig) (sys_read (ReadErr err) s))
               = -1) by (destruct sig; reflexivity).
  rewrite Es, Bs.
  destruct (Z.eqb_spec err EINTR) as [Heq|_]; [contradiction|].
  cbn [negb]. change (-1 <? 0) with true. cbv iota.
  unfold emit. cbn [bind ret fst snd app].
  rewrite <- app_assoc. reflexivity.
Qed.

Lemma read_error_exits_1_witness :
  let pre := [mkStep (ReadOk (encode Sample.ev_create)) false] in
  let w := Sample.world_of (pre ++ mkStep (ReadErr Sample.EIO) true :: []) in
  main w =
    ([Sys SYS_inotify_init; Sys (SYS_inotify_add_watch IN_ALL)] ++
     fst (run_loop pre (enter w)) ++
     [Sys SYS_read;
      Cerr "Error reading inotify file id"%string; CerrErrno Sample.EIO;
      Cout "Ending program..."%string;
      Sys SYS_inotify_rm_watch; Sys SYS_close], Ret 1).
Proof.
  intros pre w.
  apply (read_error_exits_1 w pre [] (fst (run_loop pre (enter w)))
           (mkState (Sample.after_read (encode Sample.ev_create)) 32 0 false)
           Sample.EIO true).
  - reflexivity.
  - vm_compute; discriminate.
  - vm_compute; discriminate.
  - reflexivity.
  - vm_compute; reflexivity.
  - reflexivity.
  - vm_compute; discriminate.
Defined.

(** X8.  A read that succeeds with fewer bytes than one header, at a
    moment when [errno] does not hold EINTR, ends the run with the
    diagnostic "Unexpected number of bytes" and exit code 1; nothing of
    the short read is dispatched and no further read is made. *)
Theorem short_read_exits_1 :
  forall (w : world) (pre rest : list env_step) (t : list event) (s : state)
         (data : list byte) (sig : bool),
    argc w = 2 -> 0 <= inotifyFd w -> 0 <= watchDescriptor w ->
    reads w = pre ++ mkStep (ReadOk data) sig :: rest ->
    run_prefix pre (enter w) = Some (t, s) ->
    gblExitRequested s = false ->
    Z.of_nat (length data) < sizeof_inotify_event ->
    errno s <> EINTR ->
    main w =
      ([Sys SYS_inotify_init; Sys (SYS_inotify_add_watch IN_ALL)] ++ t ++
       [Sys SYS_read;
        Cerr "Error reading inotify file id. Unexpected number of bytes"%string;
        Cout "Ending program..."%string;
        Sys SYS_inotify_rm_watch; Sys SYS_close], Ret 1).
Proof.
  intros w pre rest t s data sig Ha Hi Hw Hr Hp Hflag Hshort Herr.
  rewrite (main_enters_loop w Ha Hi Hw), Hr.
  rewrite (run_loop_app pre _ _ _ _ Hp).
  cbn [run_loop]. rewrite Hflag, (loop_body_short_read s data sig Hshort), bind_Ret.
  cbn [fst snd ret]. rewrite bind_Ret. cbn [fst snd].
  unfold epilogue.
  assert (Es : errno (deliver (mkStep (ReadOk data) sig) (sys_read (ReadOk data) s))
               = errno s) by (destruct sig; reflexivity).
  assert (Bs : bytesRead (deliver (mkStep (ReadOk data) sig) (sys_read (ReadOk data) s))
               = Z.of_nat (length data)) by (destruct sig; reflexivity).
  rewrite Es, Bs.
  destruct (Z.eqb_spec (errno s) EINTR) as [Heq|_]; [contradiction|].
  cbn [negb].
  destruct (Z.ltb_spec (Z.of_nat (length data)) 0); [lia|].
  rewrite size_t_small by (unfold sizeof_inotify_event in Hshort;
                           change (2 ^ 64) with 18446744073709551616; lia).
  destruct (Z.eqb_spec (Z.of_nat (length data)) sizeof_inotify_event); [lia|].
  cbn [negb]. unfold emit. cbn [bind ret fst snd app].
  rewrite <- app_assoc. reflexivity.
Qed.

Lemma short_read_exits_1_witness :
  let pre := [mkStep (ReadOk (encode Sample.ev_create)) false] in
  let w := Sample.world_of (pre ++ mkStep (ReadOk [Byte.x01]) false :: []) in
  main w =
    ([Sys SYS_inotify_init; Sys (SYS_inotify_add_watch IN_ALL)] ++
     fst (run_loop pre (enter w)) ++
     [Sys SYS_read;
      Cerr "Error reading inotify file id. Unexpected number of bytes"%string;
      Cout "Ending program..."%string;
      Sys SYS_inotify_rm_watch; Sys SYS_close], Ret 1).
Proof.
  intros pre w.
  apply (short_read_exits_1 w pre [] (fst (run_loop pre (enter w)))
           (mkState (Sample.after_read (encode Sample.ev_create)) 32 0 false)
           [Byte.x01] false).
  - reflexivity.
  - vm_compute; discriminate.
  - vm_compute; discriminate.
  - reflexivity.
  - vm_compute; reflexivity.
  - reflexivity.
  - vm_compute; reflexivity.
  - vm_compute; discriminate.
Defined.



(** X10.  SIGINT delivered during an iteration lets that iteration finish
    and nothing more: the run of the loop is the trace of this one
    iteration, with everything the read delivered dispatched, exactly one
    read, and no look at what the environment would offer next. *)
Theorem sigint_ends_loop_after_iteration :
  forall (s : state) (e : env_step) (env : list env_step),
    gblExitRequested s = false ->
    sigint e = true ->
    fst (run_loop (e :: env) s) = fst (loop_body s e) /\
    run_loop (e :: env) s = run_loop [e] s /\
    calls SYS_read (fst (run_loop (e :: env) s)) = 1%nat.
Proof.
  intros s e env Hflag Hsig.
  assert (Hd : gblExitRequested (deliver e (sys_read (outcome e) s)) = true)
    by (unfold deliver; rewrite Hsig; reflexivity).
  pose proof (loop_body_reads s e) as Hr.
  pose proof (loop_body_state s e) as Hst.
  assert (E : forall env', run_loop (e :: env') s =
                (fst (loop_body s e),
                 match snd (loop_body s e) with
                 | Ret _ => Ret (deliver e (sys_read (outcome e) s))
                 | Stop x => Stop x
                 end)).
  { intros env'. cbn [run_loop]. rewrite Hflag.
    destruct (loop_body s e) as [t [c|x]]; [|reflexivity].
    destruct (Hst t c eq_refl) as [-> | ->]; rewrite bind_Ret.
    - rewrite run_loop_flag by exact Hd. cbn [fst snd ret].
      rewrite app_nil_r. reflexivity.
    - cbn [fst snd ret]. rewrite app_nil_r. reflexivity. }
  rewrite !E. cbn [fst]. repeat split. exact Hr.
Qed.

Lemma sigint_ends_loop_after_iteration_witness :
  let s := enter (Sample.world_of []) in
  let e := mkStep (ReadOk (encode Sample.ev_create)) true in
  let env := [mkStep (ReadOk (encode Sample.ev_open)) false] in
  fst (run_loop (e :: env) s) = fst (loop_body s e) /\
  run_loop (e :: env) s = run_loop [e] s /\
  calls SYS_read (fst (run_loop (e :: env) s)) = 1%nat.
Proof.
  intros s e env.
  apply (sigint_ends_loop_after_iteration s e env); reflexivity.
Defined.

(** X11.  The loop does not end by itself: after iterations that all go
    back to the loop condition without the flag set, it is waiting in the
    next [read], and [main] has neither cleaned up nor returned. *)
Theorem loop_waits_for_next_read :
  forall (w : world) (t : list event) (s : state),
    argc w = 2 -> 0 <= inotifyFd w -> 0 <= watchDescriptor w ->
    run_prefix (reads w) (enter w) = Some (t, s) ->
    gblExitRequested s = false ->
    main w =
      ([Sys SYS_inotify_init; Sys (SYS_inotify_add_watch IN_ALL)] ++ t,
       Stop Blocked).
Proof.
  intros w t s Ha Hi Hw Hp Hflag.
  rewrite (main_enters_loop w Ha Hi Hw).
  pose proof (run_loop_app (reads w) [] _ _ _ Hp) as E.
  rewrite app_nil_r in E. rewrite E.
  cbn [run_loop]. rewrite Hflag. cbn [halt fst snd].
  rewrite bind_Stop, app_nil_r. reflexivity.
Qed.

Lemma loop_waits_for_next_read_witness :
  let w := Sample.world_of [mkStep (ReadOk (encode Sample.ev_create)) false;
                            mkStep (ReadErr EINTR) false] in
  main w =
    ([Sys SYS_inotify_init; Sys (SYS_inotify_add_watch IN_ALL)] ++
     fst (run_loop (reads w) (enter w)), Stop Blocked).
Proof.
  intros w.
  apply (loop_waits_for_next_read w (fst (run_loop (reads w) (enter w)))
           (mkState (Sample.after_read (encode Sample.ev_create)) (-1) EINTR false)).
  - reflexivity.
  - vm_compute; discriminate.
  - vm_compute; discriminate.
  - vm_compute; reflexivity.
  - reflexivity.
Defined.

(** ** Bounds *)

(** Offsets that lie in [p, n) and at least 16 apart are few. *)
Lemma spaced_count (l : list (Z * report)) :
  forall p n : Z,
    StronglySorted (fun d d' => fst d + sizeof_inotify_event <= fst d') l ->
    Forall (fun d => p <= fst d < n) l ->
    sizeof_inotify_event * Z.of_nat (length l) <= Z.max 0 (n - p + 15).
Proof.
  unfold sizeof_inotify_event.
  induction l as [|d l IH]; intros p n Hs Hb; [cbn [length]; lia|].
  inversion Hs as [|? ? Hs' Hf]; subst. inversion Hb as [|? ? Hd Hb']; subst.
  assert (Hb2 : Forall (fun d' => fst d + 16 <= fst d' < n) l).
  { rewrite Forall_forall in *. intros x Hx.
    specialize (Hf x Hx). specialize (Hb' x Hx). cbv beta in *. lia. }
  specialize (IH (fst d + 16) n Hs' Hb2).
  cbn [length]. lia.
Qed.

(** X12.  One read leads to at most 17 calls of [dump_inotify_event]:
    the buffer holds 272 bytes and each record takes at least the 16
    bytes of a header, whatever the bytes in the buffer are. *)
Theorem at_most_17_reports_per_read :
  forall (m : list byte) (bytesRead : Z),
    bytesRead <= minBufferSize ->
    (length (dispatches (fst (segment_loop (segment_fuel bytesRead) m bytesRead 0)))
     <= 17)%nat.
Proof.
  intros m n Hn.
  destruct (segment_loop_progress (segment_fuel n) m n 0)
    as (t & r & E & _ & Hs & Hb); [unfold segment_fuel; lia|].
  rewrite E. cbn [fst].
  pose proof (spaced_count (dispatches t) 0 n Hs Hb) as H.
  unfold minBufferSize, sizeof_inotify_event, NAME_MAX in *. lia.
Qed.

Lemma at_most_17_reports_per_read_witness :
  (length (dispatches (fst (segment_loop (segment_fuel 272)
      (Sample.after_read (encode_all (repeat Sample.ev_open 17))) 272 0)))
   <= 17)%nat.
Proof.
  apply (at_most_17_reports_per_read
           (Sample.after_read (encode_all (repeat Sample.ev_open 17))) 272).
  vm_compute. discriminate.
Defined.

Lemma int32_range (u : Z) :
  0 <= u < 2 ^ 32 -> - 2 ^ 31 <= int32 u < 2 ^ 31.
Proof.
  intros H. unfold int32.
  change (2 ^ 31) with 2147483648 in *. change (2 ^ 32) with 4294967296 in *.
  destruct (Z.ltb_spec u 2147483648); lia.
Qed.

Lemma dump_report_range (m : list byte) (p : Z) :
  Forall (fun d => fst d = p /\ report_in_range (snd d))
         (dispatches (fst (dump_inotify_event m p))).
Proof.
  unfold dump_inotify_event.
  destruct (load32_cases m p) as [E | (v1 & E & H1)]; rewrite E;
    [constructor | rewrite bind_Ret].
  destruct (load32_cases m (p + 4)) as [E2 | (v2 & E2 & H2)]; rewrite E2;
    [constructor | rewrite bind_Ret].
  destruct (load32_cases m (p + 8)) as [E3 | (v3 & E3 & H3)]; rewrite E3;
    [constructor | rewrite bind_Ret].
  destruct (load32_cases m (p + 12)) as [E4 | (v4 & E4 & H4)]; rewrite E4;
    [constructor | rewrite bind_Ret].
  unfold emit. rewrite bind_Ret. cbn [fst].
  assert (Hd : dispatches (fst (name <- c_str m (p + sizeof_inotify_event);;
                               ([CoutName name], Ret tt);;
                               ([CoutIncludes (mask_names codes v2)], Ret tt))) = []).
  { destruct (c_str_cases m (p + sizeof_inotify_event)) as (ts & Hts & [E5 | [s E5]]);
      rewrite E5; [rewrite bind_Stop | rewrite !bind_Ret]; cbn [fst snd];
      rewrite <- dispatches_observable, ?observable_app, Hts; reflexivity. }
  rewrite !dispatches_app, Hd. cbn [dispatches flat_map app].
  constructor; [|constructor]. cbn [fst snd]. split; [reflexivity|].
  unfold report_in_range. cbn [r_wd r_mask r_cookie r_len].
  pose proof (int32_range v1 H1). tauto.
Qed.

(** X13.  Whatever bytes the buffer holds, every header that the record
    loop prints has a handle in the range of a signed 32-bit integer and
    a mask, cookie and length in the range of an unsigned one, and is
    printed for an offset at or after the loop's start and below the end
    of the bytes read. *)
Theorem reports_in_range :
  forall (fuel : nat) (m : list byte) (bytesRead buffer : Z),
    Forall (fun d => buffer <= fst d < bytesRead /\ report_in_range (snd d))
           (dispatches (fst (segment_loop fuel m bytesRead buffer))).
Proof.
  induction fuel as [|fuel IH]; intros m n p; [constructor|].
  cbn [segment_loop].
  destruct (Z.ltb_spec p n) as [Hlt|Hge]; [|constructor].
  pose proof (dump_report_range m p) as Hd.
  destruct (dump_inotify_event m p) as [td [[]|x]]; cbn [fst] in Hd.
  2:{ rewrite bind_Stop. cbn [fst].
      eapply Forall_impl; [|exact Hd]. cbv beta. intros d [-> Hr].
      split; [lia | exact Hr]. }
  rewrite bind_Ret. cbn [fst]. rewrite dispatches_app.
  apply Forall_app. split.
  { eapply Forall_impl; [|exact Hd]. cbv beta. intros d [-> Hr].
    split; [lia | exact Hr]. }
  destruct (load32_cases m (p + 12)) as [El | (v & El & Hv)]; rewrite El.
  { rewrite bind_Stop. constructor. }
  rewrite bind_Ret. cbn [fst]. rewrite size_t_advance by exact Hv.
  eapply Forall_impl; [|exact (IH m n (p + (sizeof_inotify_event + v)))].
  cbv beta. unfold sizeof_inotify_event. intros d [Hb Hr].
  split; [lia | exact Hr].
Qed.

(** ** SIGINT before the first read *)

(** X14.  When SIGINT arrives after the handler is installed and before
    the loop condition is first tested, the loop body never runs: no read
    is made and nothing is dispatched, and the cleanup follows.  The exit
    code is then decided by values the program never set: it is 0 exactly
    when [errno] happens to hold EINTR or the uninitialised [bytesRead]
    happens to hold the size of one header, and then nothing is printed
    before the farewell line; it is 1 otherwise, and then what is printed
    before the farewell line is exactly the read-error diagnostic with
    the text of [errno] when [bytesRead] happens to be negative, and
    exactly the unexpected-number-of-bytes diagnostic when it is not. *)
Theorem early_sigint_makes_no_read :
  forall w : world,
    argc w = 2 -> 0 <= inotifyFd w -> 0 <= watchDescriptor w ->
    sigint_early w = true ->
    exists (d : list event) (c : Z),
      main w =
        ([Sys SYS_inotify_init; Sys (SYS_inotify_add_watch IN_ALL)] ++ d ++
         [Cout "Ending program..."%string;
          Sys SYS_inotify_rm_watch; Sys SYS_close], Ret c) /\
      Forall (fun e => is_cerr e = true) d /\
      (c = 0 \/ c = 1) /\
      (c = 0 <->
       errno_init w = EINTR \/
       (0 <= bytesRead_uninit w /\
        size_t (bytesRead_uninit w) = sizeof_inotify_event)) /\
      (c = 0 -> d = []) /\
      (c = 1 ->
       (bytesRead_uninit w < 0 /\
        d = [Cerr "Error reading inotify file id"%string;
             CerrErrno (errno_init w)]) \/
       (0 <= bytesRead_uninit w /\
        d = [Cerr "Error reading inotify file id. Unexpected number of bytes"%string])).
Proof.
  intros w Ha Hi Hw Hsig.
  rewrite (main_enters_loop w Ha Hi Hw).
  assert (He : enter w =
               mkState (buffer_uninit w) (bytesRead_uninit w) (errno_init w) true)
    by (unfold enter; rewrite Hsig; reflexivity).
  rewrite He, run_loop_flag by reflexivity.
  unfold ret. rewrite bind_Ret. cbn [fst snd app].
  unfold epilogue. cbn [errno bytesRead].
  destruct (Z.eqb_spec (errno_init w) EINTR) as [Heq|Hne]; cbn [negb].
  { exists [], 0. split; [reflexivity|]. split; [constructor|].
    split; [tauto|]. split; [tauto|]. split; [reflexivity | discriminate]. }
  destruct (Z.ltb_spec (bytesRead_uninit w) 0) as [Hneg|Hpos].
  { exists [Cerr "Error reading inotify file id"%string; CerrErrno (errno_init w)], 1.
    split; [reflexivity|]. split; [repeat constructor|].
    split; [tauto|].
    split; [split; [discriminate | intros [H|[H _]]; [contradiction|lia]]|].
    split; [discriminate|]. intros _. left. split; [exact Hneg | reflexivity]. }
  destruct (Z.eqb_spec (size_t (bytesRead_uninit w)) sizeof_inotify_event)
    as [Hsz|Hsz]; cbn [negb].
  { exists [], 0. split; [reflexivity|]. split; [constructor|].
    split; [tauto|]. split; [tauto|]. split; [reflexivity | discriminate]. }
  exists [Cerr "Error reading inotify file id. Unexpected number of bytes"%string], 1.
  split; [reflexivity|]. split; [repeat constructor|].
  split; [tauto|].
  split; [split; [discriminate | intros [H|[_ H]]; contradiction]|].
  split; [discriminate|]. intros _. right. split; [exact Hpos | reflexivity].
Qed.

Lemma early_sigint_makes_no_read_witness :
  exists (d : list event) (c : Z),
    main (mkWorld 2 Sample.path 3 1 (-1) Sample.zeros 5 true
            [mkStep (ReadOk (encode Sample.ev_open)) false]) =
      ([Sys SYS_inotify_init; Sys (SYS_inotify_add_watch IN_ALL)] ++ d ++
       [Cout "Ending program..."%string;
        Sys SYS_inotify_rm_watch; Sys SYS_close], Ret c) /\
    Forall (fun e => is_cerr e = true) d /\
    (c = 0 \/ c = 1) /\
    (c = 0 <->
     errno_init (mkWorld 2 Sample.path 3 1 (-1) Sample.zeros 5 true
            [mkStep (ReadOk (encode Sample.ev_open)) false]) = EINTR \/
     (0 <= bytesRead_uninit (mkWorld 2 Sample.path 3 1 (-1) Sample.zeros 5 true
            [mkStep (ReadOk (encode Sample.ev_open)) false]) /\
      size_t (bytesRead_uninit (mkWorld 2 Sample.path 3 1 (-1) Sample.zeros 5 true
            [mkStep (ReadOk (encode Sample.ev_open)) false])) = sizeof_inotify_event)) /\
    (c = 0 -> d = []) /\
    (c = 1 ->
     (bytesRead_uninit (mkWorld 2 Sample.path 3 1 (-1) Sample.zeros 5 true
            [mkStep (ReadOk (encode Sample.ev_open)) false]) < 0 /\
      d = [Cerr "Error reading inotify file id"%string;
           CerrErrno (errno_init (mkWorld 2 Sample.path 3 1 (-1) Sample.zeros 5 true
            [mkStep (ReadOk (encode Sample.ev_open)) false]))]) \/
     (0 <= bytesRead_uninit (mkWorld 2 Sample.path 3 1 (-1) Sample.zeros 5 true
            [mkStep (ReadOk (encode Sample.ev_open)) false]) /\
      d = [Cerr "Error reading inotify file id. Unexpected number of bytes"%string])).
Proof.
  apply (early_sigint_makes_no_read (mkWorld 2 Sample.path 3 1 (-1) Sample.zeros 5 true
            [mkStep (ReadOk (encode Sample.ev_open)) false])).
  - reflexivity.
  - vm_compute; discriminate.
  - vm_compute; discriminate.
  - reflexivity.
Defined.

(** ** Records whose name field holds a NUL *)

(** The scan of a name field that holds a NUL ends inside the field. *)
Lemma c_str_from_inside (nm : list byte) :
  forall (post : list byte) (a : Z),
    has_nul nm = true ->
    exists t s,
      c_str_from (nm ++ post) a = (t, Ret s) /\
      Forall (fun rd => a <= fst rd /\
                        fst rd + Z.of_nat (snd rd) <= a + Z.of_nat (length nm))
             (mem_reads t).
Proof.
  induction nm as [|b nm IH]; intros post a H; [discriminate|].
  cbn [has_nul existsb] in H. cbn [app c_str_from]. unfold emit. rewrite bind_Ret.
  destruct (Byte.eqb b Byte.x00) eqn:Hb.
  - exists [MemRead a 1], []. split; [reflexivity|].
    repeat constructor; cbn [fst snd length]; lia.
  - cbn [orb] in H. destruct (IH post (a + 1) H) as (t & s & Et & Hr).
    rewrite Et, bind_Ret. cbn [fst snd ret app]. rewrite app_nil_r.
    exists (MemRead a 1 :: t), (b :: s). split; [reflexivity|].
    cbn [mem_reads flat_map app]. constructor.
    + cbn [fst snd length]. lia.
    + eapply Forall_impl; [|exact Hr]. cbn [length]. intros rd Hrd.
      cbv beta in Hrd. lia.
Qed.

Lemma dump_inside (pre post : list byte) (e : raw_event) :
  valid_event e = true ->
  has_nul (name e) = true ->
  let p := Z.of_nat (length pre) in
  exists t,
    dump_inotify_event (pre ++ encode e ++ post) p = (t, Ret tt) /\
    Forall (fun rd => p <= fst rd /\
                      fst rd + Z.of_nat (snd rd) <= p + Z.of_nat (length (encode e)))
           (mem_reads t).
Proof.
  intros Hv Hn p.
  destruct (header_at pre post e p eq_refl) as (E1 & E2 & E3 & E4 & E5).
  pose proof (length_encode e) as Le. unfold len in Le.
  destruct (c_str_from_inside (name e) post (p + sizeof_inotify_event) Hn)
    as (ts & s & Ets & Hrts).
  assert (E6 : c_str (pre ++ encode e ++ post) (p + sizeof_inotify_event) =
               (ts, Ret s)).
  { unfold c_str.
    destruct (Z.ltb_spec (p + sizeof_inotify_event) 0);
      [unfold sizeof_inotify_event in *; lia|].
    rewrite E5. exact Ets. }
  unfold dump_inotify_event.
  rewrite E1, bind_Ret, E2, bind_Ret, E3, bind_Ret, E4, bind_Ret.
  unfold emit. rewrite bind_Ret, E6, !bind_Ret. cbn [fst snd].
  eexists. split; [reflexivity|].
  rewrite !mem_reads_app. cbn [mem_reads flat_map app].
  unfold sizeof_inotify_event in *.
  repeat (constructor; [cbn [fst snd]; lia|]).
  rewrite app_nil_r.
  eapply Forall_impl; [|exact Hrts]. intros rd Hrd. cbv beta in Hrd. lia.
Qed.

Lemma segment_loop_inside (es : list raw_event) :
  forall (pre post : list byte) (fuel : nat),
    Forall (fun e => valid_event e = true /\ has_nul (name e) = true) es ->
    (length es < fuel)%nat ->
    let p := Z.of_nat (length pre) in
    let n := p + Z.of_nat (length (encode_all es)) in
    exists t,
      segment_loop fuel (pre ++ encode_all es ++ post) n p = (t, Ret n) /\
      Forall (fun rd => p <= fst rd /\ fst rd + Z.of_nat (snd rd) <= n)
             (mem_reads t).
Proof.
  induction es as [|e es IH]; intros pre post fuel Hok Hf p n.
  - destruct fuel as [|fuel]; [cbn in Hf; lia|].
    subst n. cbn [encode_all map concat length]. rewrite Z.add_0_r.
    cbn [segment_loop]. rewrite Z.ltb_irrefl.
    exists []. split; [reflexivity | constructor].
  - inversion Hok as [|? ? [Hv Hn] Hoks]; subst.
    destruct fuel as [|fuel]; [cbn in Hf; lia|]. cbn [length] in Hf.
    pose proof (length_encode e) as Le.
    destruct (valid_event_spec e Hv) as (_ & _ & _ & Hlen).
    assert (Hm : pre ++ encode_all (e :: es) ++ post =
                 pre ++ encode e ++ (encode_all es ++ post))
      by (rewrite encode_all_cons, <- app_assoc; reflexivity).
    assert (Hm' : pre ++ encode_all (e :: es) ++ post =
                  (pre ++ encode e) ++ encode_all es ++ post)
      by (rewrite Hm, <- app_assoc; reflexivity).
    assert (Hn' : n = Z.of_nat (length (pre ++ encode e)) +
                      Z.of_nat (length (encode_all es))).
    { subst n p. rewrite encode_all_cons, !length_app. lia. }
    assert (Lpe : Z.of_nat (length (pre ++ encode e)) =
                  p + (sizeof_inotify_event + len e))
      by (subst p; rewrite length_app; lia).
    assert (Hpn : p + (sizeof_inotify_event + len e) <= n)
      by (rewrite Hn', Lpe; lia).
    destruct (dump_inside pre (encode_all es ++ post) e Hv Hn) as (td & Ed & Hrd).
    destruct (header_at pre (encode_all es ++ post) e p eq_refl)
      as (_ & _ & _ & El & _).
    rewrite <- Hm in Ed, El.
    destruct (IH (pre ++ encode e) post fuel Hoks ltac:(lia)) as (t & Et & Hrt).
    rewrite <- Hm' in Et. cbv zeta in Et, Hrt. rewrite <- Hn' in Et, Hrt.
    cbn [segment_loop].
    destruct (Z.ltb_spec p n); [|unfold sizeof_inotify_event in *; lia].
    fold p in Ed, Hrd. rewrite Ed, bind_Ret, El, bind_Ret.
    rewrite Z.mod_small by exact Hlen.
    rewrite size_t_advance by exact Hlen.
    rewrite <- Lpe, Et. cbn [fst snd].
    eexists. split; [reflexivity|].
    rewrite !mem_reads_app. cbn [mem_reads flat_map app].
    apply Forall_app. split; [|constructor].
    + eapply Forall_impl; [|exact Hrd]. intros rd Hx. cbv beta in Hx.
      rewrite Le in Hx. lia.
    + cbn [fst snd]. unfold sizeof_inotify_event in *. lia.
    + eapply Forall_impl; [|exact Hrt]. intros rd Hx. cbv beta in Hx.
      rewrite Lpe in Hx. unfold sizeof_inotify_event in *. lia.
Qed.

(** X15.  When the bytes read are whole valid records and every name
    field holds a NUL (as a name written by the kernel does), the record
    loop returns with the offset at the end of the bytes read and has
    read memory only inside them: no read starts before the buffer or
    ends behind the last byte read, whatever follows in the buffer. *)
Theorem records_with_names_read_in_bounds :
  forall (es : list raw_event) (stale : list byte) (fuel : nat),
    Forall (fun e => valid_event e = true /\ has_nul (name e) = true) es ->
    (length es < fuel)%nat ->
    exists t,
      segment_loop fuel (encode_all es ++ stale)
        (Z.of_nat (length (encode_all es))) 0 =
        (t, Ret (Z.of_nat (length (encode_all es)))) /\
      Forall (fun rd => 0 <= fst rd /\
                        fst rd + Z.of_nat (snd rd) <=
                          Z.of_nat (length (encode_all es)))
             (mem_reads t).
Proof.
  intros es stale fuel Hok Hf.
  exact (segment_loop_inside es [] stale fuel Hok Hf).
Qed.

Lemma records_with_names_read_in_bounds_witness :
  exists t,
    segment_loop 3 (encode_all [Sample.ev_create; Sample.ev_create] ++ [])
      (Z.of_nat (length (encode_all [Sample.ev_create; Sample.ev_create]))) 0 =
      (t, Ret (Z.of_nat (length (encode_all [Sample.ev_create; Sample.ev_create])))) /\
    Forall (fun rd => 0 <= fst rd /\
                      fst rd + Z.of_nat (snd rd) <=
                        Z.of_nat (length (encode_all
                                            [Sample.ev_create; Sample.ev_create])))
           (mem_reads t).
Proof.
  apply (records_with_names_read_in_bounds
           [Sample.ev_create; Sample.ev_create] [] 3).
  - repeat constructor.
  - simpl; lia.
Defined.

(** ** Interrupted reads, two records, a failing read *)

(** X16.  The reads are: interrupted, interrupted, two whole valid
    records, an error other than EINTR; no SIGINT.  When the name scans
    of the two records end inside the allocation ([scans_end]), the loop
    reads three times in a row, prints the two records in the order they
    lie in the buffer before it reads again, and on the failing read
    leaves the loop, reports the error with its [errno], cleans up and
    exits with code 1. *)
Theorem retry_dispatch_then_fail :
  forall (w : world) (e1 e2 : raw_event) (err : Z),
    argc w = 2 -> 0 <= inotifyFd w -> 0 <= watchDescriptor w ->
    sigint_early w = false ->
    valid_event e1 = true -> valid_event e2 = true ->
    err <> EINTR ->
    scans_end [e1; e2]
      (skipn (length (encode_all [e1; e2])) (buffer_uninit w)) = true ->
    reads w = [mkStep (ReadErr EINTR) false; mkStep (ReadErr EINTR) false;
               mkStep (ReadOk (encode_all [e1; e2])) false;
               mkStep (ReadErr err) false] ->
    exists t n1 n2,
      main w = (t, Ret 1) /\
      observable t =
        [Sys SYS_inotify_init; Sys (SYS_inotify_add_watch IN_ALL);
         Sys SYS_read; Sys SYS_read; Sys SYS_read;
         Cout "Completed one read..."%string;
         Dispatch 0 (report_of e1); CoutName n1;
         CoutIncludes (mask_names codes (mask e1));
         Dispatch (Z.of_nat (length (encode e1))) (report_of e2); CoutName n2;
         CoutIncludes (mask_names codes (mask e2));
         Sys SYS_read;
         Cerr "Error reading inotify file id"%string; CerrErrno err;
         Cout "Ending program..."%string;
         Sys SYS_inotify_rm_watch; Sys SYS_close].
Proof.
  intros w e1 e2 err Ha Hi Hw Hsig Hv1 Hv2 Herr Hscan Hr.
  set (data := encode_all [e1; e2]) in *.
  set (n := Z.of_nat (length data)).
  pose proof (length_encode e1) as L1. pose proof (length_encode e2) as L2.
  destruct (valid_event_spec e1 Hv1) as (_ & _ & _ & Hl1).
  destruct (valid_event_spec e2 Hv2) as (_ & _ & _ & Hl2).
  assert (Hn : n = Z.of_nat (length (encode e1)) + Z.of_nat (length (encode e2))).
  { subst n data. unfold encode_all. cbn [map concat].
    rewrite !length_app. cbn [length]. lia. }
  assert (Hrange : sizeof_inotify_event <= n < 2 ^ 64).
  { unfold sizeof_inotify_event in *.
    change (2 ^ 32) with 4294967296 in *.
    change (2 ^ 64) with 18446744073709551616. lia. }
  destruct (segment_loop_whole [e1; e2]
              (skipn (length data) (buffer_uninit w)) (segment_fuel n))
    as (ts & names & Es & Hl & Ho).
  { repeat constructor; assumption. }
  { exact Hscan. }
  { unfold segment_fuel. unfold sizeof_inotify_event in *. cbn [length]. lia. }
  fold data in Es. fold n in Es.
  destruct names as [|n1 [|n2 [|n3 names]]]; try discriminate Hl.
  cbn [printed] in Ho. rewrite Z.add_0_l in Ho.
  exists ([Sys SYS_inotify_init; Sys (SYS_inotify_add_watch IN_ALL)] ++
          [Sys SYS_read] ++ [Sys SYS_read] ++
          (Sys SYS_read :: Cout "Completed one read..."%string :: ts) ++
          [Sys SYS_read] ++
          [Cerr "Error reading inotify file id"%string; CerrErrno err;
           Cout "Ending program..."%string;
           Sys SYS_inotify_rm_watch; Sys SYS_close]), n1, n2.
  split.
  - rewrite (main_enters_loop w Ha Hi Hw), Hr.
    unfold enter. rewrite Hsig.
    cbn [run_loop gblExitRequested].
    rewrite loop_body_read_error, bind_Ret. cbn [Z.eqb EINTR Pos.eqb fst snd].
    cbn [deliver sigint sys_read gblExitRequested mem errno bytesRead].
    rewrite loop_body_read_error, bind_Ret. cbn [Z.eqb EINTR Pos.eqb fst snd].
    cbn [deliver sigint sys_read gblExitRequested mem errno bytesRead].
    rewrite (loop_body_full_read _ data false Hrange).
    cbn [mem]. fold n. rewrite Es. cbn [fst snd]. rewrite bind_Ret.
    cbn [deliver sigint sys_read gblExitRequested mem errno bytesRead].
    rewrite loop_body_read_error, bind_Ret.
    destruct (Z.eqb_spec err EINTR) as [Heq|_]; [contradiction|].
    cbn [fst snd ret]. rewrite bind_Ret. cbn [fst snd].
    cbn [deliver sigint sys_read gblExitRequested mem errno bytesRead].
    unfold epilogue. cbn [errno bytesRead].
    destruct (Z.eqb_spec err EINTR) as [Heq|_]; [contradiction|].
    cbn [negb]. change (-1 <? 0) with true. cbv iota.
    unfold emit. cbn [bind ret fst snd app].
    rewrite <- app_assoc. reflexivity.
  - rewrite !observable_app. cbn [observable filter is_mem_read negb app].
    fold (observable ts). rewrite Ho. reflexivity.
Qed.

Lemma retry_dispatch_then_fail_witness :
  exists t n1 n2,
    main (Sample.world_of
            [mkStep (ReadErr EINTR) false; mkStep (ReadErr EINTR) false;
             mkStep (ReadOk (encode_all [Sample.ev_create; Sample.ev_close])) false;
             mkStep (ReadErr Sample.EIO) false]) = (t, Ret 1) /\
    observable t =
      [Sys SYS_inotify_init; Sys (SYS_inotify_add_watch IN_ALL);
       Sys SYS_read; Sys SYS_read; Sys SYS_read;
       Cout "Completed one read..."%string;
       Dispatch 0 (report_of Sample.ev_create); CoutName n1;
       CoutIncludes (mask_names codes (mask Sample.ev_create));
       Dispatch (Z.of_nat (length (encode Sample.ev_create)))
         (report_of Sample.ev_close); CoutName n2;
       CoutIncludes (mask_names codes (mask Sample.ev_close));
       Sys SYS_read;
       Cerr "Error reading inotify file id"%string; CerrErrno Sample.EIO;
       Cout "Ending program..."%string;
       Sys SYS_inotify_rm_watch; Sys SYS_close].
Proof.
  apply (retry_dispatch_then_fail
           (Sample.world_of
              [mkStep (ReadErr EINTR) false; mkStep (ReadErr EINTR) false;
               mkStep (ReadOk (encode_all [Sample.ev_create; Sample.ev_close])) false;
               mkStep (ReadErr Sample.EIO) false])
           Sample.ev_create Sample.ev_close Sample.EIO).
  - reflexivity.
  - vm_compute; discriminate.
  - vm_compute; discriminate.
  - reflexivity.
  - reflexivity.
  - reflexivity.
  - vm_compute; discriminate.
  - vm_compute; reflexivity.
  - reflexivity.
Defined.
